(** * waconnect-go: the wire-protocol core, embedded in Rocq

    A shallow embedding of the Go sources of the gateway's protocol core:
    - [internal/core/qrcode.go]: the protobuf subset (varints, tags,
      length-delimited fields, [findField], [DecodeServerHello]), the QR
      pairing string and the hand-written base64 encoder;
    - [internal/core/noise.go]: the Noise handler ([NoiseHandler] and its
      methods);
    - the binary-node codec ([EncodeBinaryNode], [DecodeBinaryNode]) with its
      token dictionary;
    - the session manager ([CreateSession], [DeleteSession]).

    Conventions.  A Go [[]byte] is a [list byte]; a Go [string] is a
    [string] (a sequence of bytes, as in Go).  Fixed-width integers are [Z]
    with the wrap-around written out ([wrap64], [wrap32], [to_int]).  A Go
    [(value, error)] result is a sum [E + A]; a run that panics or loops
    forever is an explicit outcome ([run]).  The first part of the file holds
    the definitions, the second part the lemmas and theorems. *)

From Stdlib Require Import ZArith List String Ascii Lia Bool.
From Stdlib.Strings Require Import Byte.
From stdpp Require Import base gmap strings list pretty.
From Equations Require Import Equations.
Import ListNotations.

Local Open Scope Z_scope.

(* ===================================================================== *)
(** * Part I: definitions                                                 *)
(* ===================================================================== *)

(** ** Bytes and fixed-width integers *)

Module Bytes.

(** The numeric value of a byte, [0 <= v < 256]. *)
Definition byte_to_Z (b : byte) : Z := Z.of_N (Byte.to_N b).

(** Go's conversion [byte(x)]: the low eight bits of [x]. *)
Definition byte_of_Z (z : Z) : byte :=
  match Byte.of_N (Z.to_N (z mod 256)) with
  | Some b => b
  | None => x00
  end.

Definition wrap16 (z : Z) : Z := z mod 2 ^ 16.
Definition wrap32 (z : Z) : Z := z mod 2 ^ 32.
Definition wrap64 (z : Z) : Z := z mod 2 ^ 64.

(** Go's conversion [int(x)] of a [uint64] on a 64-bit platform (two's
    complement: values from [2^63] up become negative), and the wrap-around
    of [int] arithmetic. *)
Definition to_int (z : Z) : Z :=
  let w := wrap64 z in if w <? 2 ^ 63 then w else w - 2 ^ 64.

Definition len {A} (l : list A) : Z := Z.of_nat (length l).

(** [binary.BigEndian.PutUint16] and [PutUint32]. *)
Definition BE16 (v : Z) : list byte :=
  [byte_of_Z (Z.shiftr v 8); byte_of_Z v].
Definition BE32 (v : Z) : list byte :=
  [byte_of_Z (Z.shiftr v 24); byte_of_Z (Z.shiftr v 16);
   byte_of_Z (Z.shiftr v 8); byte_of_Z v].

(** [[]byte(s)] and [string(b)]. *)
Definition bytes_of_string (s : string) : list byte := list_byte_of_string s.
Definition string_of_bytes (b : list byte) : string := string_of_list_byte b.

(** The slice expression [data[lo:hi]] for in-range bounds. *)
Definition slice {A} (data : list A) (lo hi : Z) : list A :=
  take (Z.to_nat (hi - lo)) (drop (Z.to_nat lo) data).

End Bytes.
Import Bytes.

(** How a call ends: it returns, it panics (a Go run-time panic such as a
    slice bound out of range), or it never returns. *)
Inductive run (A : Type) : Type :=
| Done (a : A)
| Panicked
| Looping.
Arguments Done {A} a.
Arguments Panicked {A}.
Arguments Looping {A}.

#[global] Instance run_ret : MRet run := fun A a => Done a.
#[global] Instance run_bind : MBind run := fun A B k r =>
  match r with
  | Done a => k a
  | Panicked => Panicked
  | Looping => Looping
  end.

(** ** The protobuf subset of [qrcode.go] *)

Module Protobuf.

(** Wire types. *)
Definition wireVarint : Z := 0.
Definition wireFixed64 : Z := 1.
Definition wireBytes : Z := 2.
Definition wireFixed32 : Z := 5.

(** Field numbers of [HandshakeMessage] and of its inner messages. *)
Definition fieldClientHello : Z := 2.
Definition fieldServerHello : Z := 3.
Definition fieldClientFinish : Z := 4.
Definition fieldEphemeral : Z := 1.
Definition fieldStatic : Z := 2.
Definition fieldPayload : Z := 3.

(** The measure of the encoder's loop: the number of binary digits of [n]. *)
Definition bitlen (n : Z) : nat := Z.to_nat (Z.log2 (2 * n + 1)).

Lemma bitlen_shiftr (n : Z) : n > 0 -> (bitlen (Z.shiftr n 7) < bitlen n)%nat.
Proof.
  intros Hn. unfold bitlen.
  rewrite Z.shiftr_div_pow2 by lia. change (2 ^ 7) with 128.
  assert (0 <= n / 128) by (apply Z.div_pos; lia).
  assert (2 * (n / 128) + 1 <= n).
  { pose proof (Z.mul_div_le n 128 ltac:(lia)). lia. }
  assert (Z.log2 (2 * (n / 128) + 1) <= Z.log2 n)
    by (apply Z.log2_le_mono; lia).
  assert (Z.log2 (2 * n + 1) = Z.succ (Z.log2 n))
    by (rewrite Z.log2_succ_double by lia; lia).
  pose proof (Z.log2_nonneg n).
  pose proof (Z.log2_nonneg (2 * (n / 128) + 1)). lia.
Qed.

(** The loop [for n > 0 { ... }] of [encodeVarint]; the bytes are produced
    in the order the source appends them to [buf]. *)
Equations? encodeVarint_loop (n : Z) : list byte by wf (bitlen n) lt :=
  encodeVarint_loop n with Z_gt_dec n 0 := {
    | right _ => []
    | left _ =>
        let b := Z.land n 0x7F in
        let n' := Z.shiftr n 7 in
        let b' := if n' >? 0 then Z.lor b 0x80 else b in
        byte_of_Z b' :: encodeVarint_loop n' }.
Proof. apply bitlen_shiftr; assumption. Qed.

(** [encodeVarint(n uint64) []byte]. *)
Definition encodeVarint (n : Z) : list byte :=
  if n =? 0 then [x00] else encodeVarint_loop n.

(** The loop [for i, b := range data] of [decodeVarint], with the running
    value [n], the shift and the index [i]. *)
Fixpoint decodeVarint_loop (data : list byte) (n shift i : Z) : Z * Z :=
  match data with
  | [] => (0, 0)
  | b :: rest =>
      let n' := Z.lor n (wrap64 (Z.shiftl (Z.land (byte_to_Z b) 0x7F) shift)) in
      if byte_to_Z b <? 0x80 then (n', i + 1)
      else
        let shift' := shift + 7 in
        if shift' >=? 64 then (0, 0)
        else decodeVarint_loop rest n' shift' (i + 1)
  end.

(** [decodeVarint(data []byte) (uint64, int)]: the value and the number of
    bytes consumed, [(0, 0)] on overflow or on truncated input. *)
Definition decodeVarint (data : list byte) : Z * Z :=
  decodeVarint_loop data 0 0 0.

(** [encodeTag(fieldNum, wireType)]. *)
Definition encodeTag (fieldNum wireType : Z) : list byte :=
  encodeVarint (wrap64 (Z.lor (Z.shiftl fieldNum 3) wireType)).

(** [pbEncodeBytes(fieldNum, data)]: nothing at all for empty data. *)
Definition pbEncodeBytes (fieldNum : Z) (data : list byte) : list byte :=
  match data with
  | [] => []
  | _ => encodeTag fieldNum wireBytes ++ encodeVarint (len data) ++ data
  end.

(** [EncodeClientHello(ephemeral)]. *)
Definition EncodeClientHello (ephemeral : list byte) : list byte :=
  let clientHello := pbEncodeBytes fieldEphemeral ephemeral in
  pbEncodeBytes fieldClientHello clientHello.

(** [EncodeClientFinish(static, payload)].  The source writes the static key
    under [fieldStatic] and the payload under [fieldPayload]. *)
Definition EncodeClientFinish (static payload : list byte) : list byte :=
  let clientFinish := pbEncodeBytes fieldStatic static in
  let clientFinish :=
    if 0 <? len payload
    then clientFinish ++ pbEncodeBytes fieldPayload payload
    else clientFinish in
  pbEncodeBytes fieldClientFinish clientFinish.

Inductive ProtobufError : Type :=
| ErrInvalidProtobuf
| ErrFieldNotFound.

(** One round of the loop of [findField] from position [pos]: either the
    function returns ([inl]) or the loop goes on from a new position
    ([inr]).  [pos + int(length)] is [int] arithmetic; the slice
    [data[pos : pos+int(length)]] panics when its bounds are not ordered. *)
Definition findField_step (data : list byte) (targetField pos : Z)
  : run ((ProtobufError + list byte) + Z) :=
  let '(tag, n) := decodeVarint (drop (Z.to_nat pos) data) in
  if n =? 0 then Done (inl (inl ErrFieldNotFound))
  else
    let pos := pos + n in
    let fieldNum := to_int (Z.shiftr tag 3) in
    let wireType := to_int (Z.land tag 0x7) in
    if wireType =? wireVarint then
      let '(_, n) := decodeVarint (drop (Z.to_nat pos) data) in
      if n =? 0 then Done (inl (inl ErrInvalidProtobuf))
      else Done (inr (pos + n))
    else if wireType =? wireFixed64 then Done (inr (pos + 8))
    else if wireType =? wireFixed32 then Done (inr (pos + 4))
    else if wireType =? wireBytes then
      let '(length, n) := decodeVarint (drop (Z.to_nat pos) data) in
      if n =? 0 then Done (inl (inl ErrInvalidProtobuf))
      else
        let pos := pos + n in
        let hi := to_int (pos + to_int length) in
        if hi >? len data then Done (inl (inl ErrInvalidProtobuf))
        else if fieldNum =? targetField then
          if (pos <=? hi) && (0 <=? hi) then Done (inl (inr (slice data pos hi)))
          else Panicked
        else Done (inr hi)
    else Done (inl (inl ErrInvalidProtobuf)).

(** The loop [for pos < len(data)].  A position below zero makes the slice
    [data[pos:]] panic.  The loop's only state is [pos], which is at least 0
    and below [len(data)] at the head of every round, so a run that has not
    returned after [len(data) + 1] rounds visits some position twice and
    never returns: running out of fuel is the outcome [Looping]. *)
Fixpoint findField_loop (fuel : nat) (data : list byte) (targetField pos : Z)
  : run (ProtobufError + list byte) :=
  match fuel with
  | O => Looping
  | S fuel =>
      if pos <? len data then
        if pos <? 0 then Panicked
        else
          match findField_step data targetField pos with
          | Done (inl r) => Done r
          | Done (inr pos') => findField_loop fuel data targetField pos'
          | Panicked => Panicked
          | Looping => Looping
          end
      else Done (inl ErrFieldNotFound)
  end.

(** [findField(data, targetField) ([]byte, error)]. *)
Definition findField (data : list byte) (targetField : Z)
  : run (ProtobufError + list byte) :=
  findField_loop (S (length data)) data targetField 0.

(** [ServerHelloData]. *)
Record ServerHelloData : Type := mkServerHello {
  Ephemeral : list byte;
  Static : list byte;
  Payload : list byte;
}.

(** The value a [findField] result leaves in a field of the result struct:
    the bytes found, or the field's zero value (nil) on an error. *)
Definition field_or_nil (r : ProtobufError + list byte) : list byte :=
  match r with
  | inr b => b
  | inl _ => []
  end.

(** [DecodeServerHello(data)], returning a [ServerHelloData]; the error it
    returns is always nil. *)
Definition DecodeServerHello (data : list byte) : run ServerHelloData :=
  r ← findField data fieldServerHello;
  let serverHelloBytes := match r with inr b => b | inl _ => data end in
  e ← findField serverHelloBytes fieldEphemeral;
  s ← findField serverHelloBytes fieldStatic;
  p ← findField serverHelloBytes fieldPayload;
  let result := mkServerHello (field_or_nil e) (field_or_nil s) (field_or_nil p) in
  if (len (Ephemeral result) =? 0) && (len data >=? 32) then
    Done (mkServerHello (take 32 data)
                        (if len data >? 32 then drop 32 data else Static result)
                        (Payload result))
  else Done result.
(** ** Messages of length-delimited fields

    What [pbEncodeBytes] builds and [findField] reads back, as two reference
    definitions for the theorems of Part II. *)

(** A message made of length-delimited fields, each a field number and its
    bytes, in order; a field whose bytes are empty is not written. *)
Definition encode_fields (fs : list (Z * list byte)) : list byte :=
  flat_map (fun fd => pbEncodeBytes (fst fd) (snd fd)) fs.

(** The bytes of the first field written under the number [target]. *)
Fixpoint first_field (target : Z) (fs : list (Z * list byte))
  : ProtobufError + list byte :=
  match fs with
  | [] => inl ErrFieldNotFound
  | (f, d) :: fs =>
      if (f =? target) && (0 <? len d) then inr d else first_field target fs
  end.
(** The length varint that sends [findField] back to position 0: as an
    [int] it is minus the position at which the field's bytes begin. *)
Definition rewinding_field (f : Z) (rest : list byte) : list byte :=
  encodeTag f wireBytes
    ++ encodeVarint (2 ^ 64 - (len (encodeTag f wireBytes) + 10)) ++ rest.

End Protobuf.

(** ** SHA-256, HMAC and HKDF

    [crypto/sha256] and [golang.org/x/crypto/hkdf] are libraries the handler
    calls.  They are written here from their standards (FIPS 180-4, RFC 2104,
    RFC 5869) so that the handler can be run on concrete inputs; the round
    constants are computed from their definition (the fractional parts of
    the square and cube roots of the first primes). *)

Module SHA256.

Definition mask32 : Z := 2 ^ 32 - 1.
Definition add32 (a b : Z) : Z := (a + b) mod 2 ^ 32.
Definition rotr (k x : Z) : Z :=
  Z.lor (Z.shiftr x k) (Z.land (Z.shiftl x (32 - k)) mask32).
Definition xor3 (a b c : Z) : Z := Z.lxor (Z.lxor a b) c.

Definition Ch (x y z : Z) : Z :=
  Z.lxor (Z.land x y) (Z.land (Z.lxor x mask32) z).
Definition Maj (x y z : Z) : Z :=
  xor3 (Z.land x y) (Z.land x z) (Z.land y z).
Definition Sigma0 (x : Z) : Z := xor3 (rotr 2 x) (rotr 13 x) (rotr 22 x).
Definition Sigma1 (x : Z) : Z := xor3 (rotr 6 x) (rotr 11 x) (rotr 25 x).
Definition sigma0 (x : Z) : Z := xor3 (rotr 7 x) (rotr 18 x) (Z.shiftr x 3).
Definition sigma1 (x : Z) : Z := xor3 (rotr 17 x) (rotr 19 x) (Z.shiftr x 10).

Definition is_prime (p : Z) : bool :=
  (2 <=? p) &&
  forallb (fun d => negb (p mod d =? 0))
          (map Z.of_nat (seq 2 (Z.to_nat p - 2))).

Definition first_primes (k : nat) : list Z :=
  take k (filter (fun p => is_prime p = true) (map Z.of_nat (seq 2 320))).

(** The integer cube root, one binary digit at a time from bit [k] down. *)
Fixpoint icbrt_bits (k : nat) (m r : Z) : Z :=
  let r' := r + 2 ^ Z.of_nat k in
  let r := if r' * r' * r' <=? m then r' else r in
  match k with
  | O => r
  | S k => icbrt_bits k m r
  end.
Definition icbrt (m : Z) : Z := icbrt_bits 40 m 0.

Definition K256 : list Z :=
  Eval vm_compute in
    map (fun p => icbrt (p * 2 ^ 96) mod 2 ^ 32) (first_primes 64).
Definition H256 : list Z :=
  Eval vm_compute in
    map (fun p => Z.sqrt (p * 2 ^ 64) mod 2 ^ 32) (first_primes 8).

Definition BE64 (v : Z) : list byte :=
  BE32 (Z.shiftr v 32) ++ BE32 v.

(** The message followed by the bit 1, zero bits and the 64-bit length. *)
Definition pad (msg : list byte) : list byte :=
  let l := len msg in
  msg ++ [byte_of_Z 0x80] ++ replicate (Z.to_nat ((55 - l) mod 64)) x00
      ++ BE64 (8 * l).

Fixpoint words (fuel : nat) (data : list byte) : list Z :=
  match fuel, data with
  | S fuel, a :: b :: c :: d :: rest =>
      (byte_to_Z a * 2 ^ 24 + byte_to_Z b * 2 ^ 16 + byte_to_Z c * 2 ^ 8
       + byte_to_Z d) :: words fuel rest
  | _, _ => []
  end.

(** The message schedule beyond the sixteen words of the block; [win] holds
    the last sixteen words, oldest first. *)
Fixpoint expand (k : nat) (win : list Z) : list Z :=
  match k, win with
  | S k, w0 :: rest =>
      let w := add32 (add32 (sigma1 (nth 13 rest 0)) (nth 8 rest 0))
                     (add32 (sigma0 (nth 0 rest 0)) w0) in
      w :: expand k (rest ++ [w])
  | _, _ => []
  end.

Definition round (st : list Z) (kw : Z * Z) : list Z :=
  match st with
  | [a; b; c; d; e; f; g; h] =>
      let t1 := add32 (add32 (add32 h (Sigma1 e)) (add32 (Ch e f g) (fst kw)))
                      (snd kw) in
      let t2 := add32 (Sigma0 a) (Maj a b c) in
      [add32 t1 t2; a; b; c; add32 d t1; e; f; g]
  | _ => st
  end.

Definition compress (st : list Z) (block : list byte) : list Z :=
  let m := words 16 block in
  let w := m ++ expand 48 m in
  zip_with add32 st (fold_left round (zip K256 w) st).

Fixpoint blocks (fuel : nat) (st : list Z) (data : list byte) : list Z :=
  match fuel, data with
  | S fuel, _ :: _ => blocks fuel (compress st (take 64 data)) (drop 64 data)
  | _, _ => st
  end.

(** [sha256.Sum256(msg)], as 32 bytes. *)
Definition sum256 (msg : list byte) : list byte :=
  let p := pad msg in
  concat (map BE32 (blocks (length p) H256 p)).

Definition xor_pad (c : Z) (key : list byte) : list byte :=
  map (fun b => byte_of_Z (Z.lxor (byte_to_Z b) c))
      (key ++ replicate (64 - length key) x00).

(** HMAC-SHA256. *)
Definition hmac (key msg : list byte) : list byte :=
  let key := if 64 <? len key then sum256 key else key in
  sum256 (xor_pad 0x5c key ++ sum256 (xor_pad 0x36 key ++ msg)).

(** [hkdf.New(sha256.New, secret, salt, nil)] read for its first 64 bytes:
    extract, then two blocks of expand with empty info. *)
Definition hkdf64 (secret salt : list byte) : list byte :=
  let salt := match salt with [] => replicate 32 x00 | _ => salt end in
  let prk := hmac salt secret in
  let t1 := hmac prk [byte_of_Z 1] in
  let t2 := hmac prk (t1 ++ [byte_of_Z 2]) in
  t1 ++ t2.

End SHA256.

(** ** The Noise handler of [noise.go] *)

(** The cryptographic libraries the handler calls, as an interface:
    [sha256.Sum256]; AES-GCM's [Seal] and [Open] with arguments key, nonce,
    text and additional data ([Open] gives [None] when the tag does not
    verify); HKDF-SHA256 read for [n] bytes from a secret and a salt ([None]
    when the read reports an error); and [curve25519.X25519]. *)
Class Crypto : Type := {
  sha256 : list byte -> list byte;
  gcm_seal : list byte -> list byte -> list byte -> list byte -> list byte;
  gcm_open : list byte -> list byte -> list byte -> list byte -> option (list byte);
  hkdf_read : list byte -> list byte -> nat -> option (list byte);
  x25519 : list byte -> list byte -> option (list byte);
}.

Module Noise.

(** [NoiseMode]: the protocol name followed by four zero bytes. *)
Definition NoiseMode : list byte :=
  bytes_of_string "Noise_XX_25519_AESGCM_SHA256" ++ replicate 4 x00.

(** [NoiseHeader]: the letters W and A, version 6, dictionary version 3. *)
Definition NoiseHeader : list byte :=
  bytes_of_string "WA" ++ [byte_of_Z 6; byte_of_Z 3].

Inductive NoiseErr : Type :=
| KeySizeError            (* aes.NewCipher: the key is not 16, 24 or 32 bytes *)
| ErrAuthFailed           (* gcm.Open: message authentication failed *)
| ErrHkdfRead             (* the HKDF reader reported an error *)
| ErrInvalidKeyLength     (* dh: invalid key length *)
| ErrX25519               (* curve25519.X25519 reported an error *)
| ErrServerHelloTooShort
| ErrDH1 (e : NoiseErr)
| ErrMixIntoKey (e : NoiseErr).

(** One use of the AEAD: the key and the nonce handed to [Seal] or [Open]. *)
Record AeadCall : Type := mkCall {
  call_key : list byte;
  call_nonce : list byte;
}.

(** [NoiseHandler].  The mutex is left out (the methods are modelled one
    call at a time).  [aead_log] is not a field of the Go struct: it records,
    in order, the key and nonce of every [gcm.Seal] and [gcm.Open] call the
    handler has made. *)
Record NoiseHandler : Type := mkHandler {
  ephemeralPrivate : list byte;
  ephemeralPublic : list byte;
  staticPrivate : list byte;
  staticPublic : list byte;
  serverEphemeral : list byte;
  hash : list byte;
  salt : list byte;
  encKey : list byte;
  decKey : list byte;
  readCounter : Z;
  writeCounter : Z;
  isFinished : bool;
  frameBuffer : list byte;
  aead_log : list AeadCall;
}.

Definition set_hash (h : list byte) (n : NoiseHandler) : NoiseHandler :=
  mkHandler (ephemeralPrivate n) (ephemeralPublic n) (staticPrivate n)
    (staticPublic n) (serverEphemeral n) h (salt n) (encKey n) (decKey n)
    (readCounter n) (writeCounter n) (isFinished n) (frameBuffer n) (aead_log n).

Definition set_serverEphemeral (e : list byte) (n : NoiseHandler) : NoiseHandler :=
  mkHandler (ephemeralPrivate n) (ephemeralPublic n) (staticPrivate n)
    (staticPublic n) e (hash n) (salt n) (encKey n) (decKey n)
    (readCounter n) (writeCounter n) (isFinished n) (frameBuffer n) (aead_log n).

Definition set_frameBuffer (b : list byte) (n : NoiseHandler) : NoiseHandler :=
  mkHandler (ephemeralPrivate n) (ephemeralPublic n) (staticPrivate n)
    (staticPublic n) (serverEphemeral n) (hash n) (salt n) (encKey n) (decKey n)
    (readCounter n) (writeCounter n) (isFinished n) b (aead_log n).

(** The counters and the log after one AEAD call. *)
Definition set_counters (r w : Z) (log : list AeadCall) (n : NoiseHandler)
  : NoiseHandler :=
  mkHandler (ephemeralPrivate n) (ephemeralPublic n) (staticPrivate n)
    (staticPublic n) (serverEphemeral n) (hash n) (salt n) (encKey n) (decKey n)
    r w (isFinished n) (frameBuffer n) log.

(** The key material, counters and flags that [initializeState],
    [mixIntoKey] and [finishInit] assign. *)
Definition set_keys (h s ek dk : list byte) (fin : bool) (n : NoiseHandler)
  : NoiseHandler :=
  mkHandler (ephemeralPrivate n) (ephemeralPublic n) (staticPrivate n)
    (staticPublic n) (serverEphemeral n) h s ek dk 0 0 fin
    (frameBuffer n) (aead_log n).

(** [aes.NewCipher(key)] accepts keys of 16, 24 or 32 bytes only. *)
Definition aes_NewCipher (key : list byte) : bool :=
  (len key =? 16) || (len key =? 24) || (len key =? 32).

(** [generateIV(counter uint32)]: twelve zero bytes, the last four
    overwritten with the counter in big-endian order. *)
Definition generateIV (counter : Z) : list byte :=
  take 8 (replicate 12 x00) ++ BE32 counter.

Section Handler.
Context `{Crypto}.

(** [authenticate(data)]. *)
Definition authenticate (data : list byte) (n : NoiseHandler) : NoiseHandler :=
  if isFinished n then n else set_hash (sha256 (hash n ++ data)) n.

(** The assignments of [initializeState] before its two [authenticate]
    calls. *)
Definition initializeState_fields (n : NoiseHandler) : NoiseHandler :=
  let modeBytes := NoiseMode in
  let h := if len modeBytes =? 32 then modeBytes else sha256 modeBytes in
  set_keys h h h h false n.

(** [initializeState()]. *)
Definition initializeState (n : NoiseHandler) : NoiseHandler :=
  let n := initializeState_fields n in
  let n := authenticate NoiseHeader n in
  authenticate (ephemeralPublic n) n.

(** [NewNoiseHandler()], given the two private keys drawn at random and the
    public keys [curve25519.ScalarBaseMult] derives from them. *)
Definition NewNoiseHandler (ePriv ePub sPriv sPub : list byte) : NoiseHandler :=
  initializeState
    (mkHandler ePriv ePub sPriv sPub [] [] [] [] [] 0 0 false [] []).

(** [encrypt(plaintext)]. *)
Definition encrypt (plaintext : list byte) (n : NoiseHandler)
  : (NoiseErr + list byte) * NoiseHandler :=
  if negb (aes_NewCipher (encKey n)) then (inl KeySizeError, n)
  else
    let iv := generateIV (writeCounter n) in
    let ciphertext := gcm_seal (encKey n) iv plaintext (hash n) in
    let n := set_counters (readCounter n) (wrap32 (writeCounter n + 1))
                          (aead_log n ++ [mkCall (encKey n) iv]) n in
    let n := authenticate ciphertext n in
    (inr ciphertext, n).

(** [decrypt(ciphertext)].  The counter is advanced before [Open] is
    called, so it advances on a failed verification too. *)
Definition decrypt (ciphertext : list byte) (n : NoiseHandler)
  : (NoiseErr + list byte) * NoiseHandler :=
  if negb (aes_NewCipher (decKey n)) then (inl KeySizeError, n)
  else
    let iv := if isFinished n then generateIV (readCounter n)
              else generateIV (writeCounter n) in
    let log := aead_log n ++ [mkCall (decKey n) iv] in
    let n := if isFinished n
             then set_counters (wrap32 (readCounter n + 1)) (writeCounter n) log n
             else set_counters (readCounter n) (wrap32 (writeCounter n + 1)) log n in
    match gcm_open (decKey n) iv ciphertext (hash n) with
    | None => (inl ErrAuthFailed, n)
    | Some plaintext => (inr plaintext, authenticate ciphertext n)
    end.

(** [mixIntoKey(data)]: the error, if any, and the handler. *)
Definition mixIntoKey (data : list byte) (n : NoiseHandler)
  : option NoiseErr * NoiseHandler :=
  match hkdf_read data (salt n) 64 with
  | None => (Some ErrHkdfRead, n)
  | Some key =>
      (None, set_keys (hash n) (take 32 key) (drop 32 key) (drop 32 key)
                      (isFinished n) n)
  end.

(** [finishInit()]. *)
Definition finishInit (n : NoiseHandler) : option NoiseErr * NoiseHandler :=
  match hkdf_read [] (salt n) 64 with
  | None => (Some ErrHkdfRead, n)
  | Some key =>
      (None, set_keys [] (salt n) (take 32 key) (drop 32 key) true n)
  end.

(** [dh(privateKey, publicKey)]. *)
Definition dh (privateKey publicKey : list byte) : NoiseErr + list byte :=
  if negb (len privateKey =? 32) || negb (len publicKey =? 32)
  then inl ErrInvalidKeyLength
  else match x25519 privateKey publicKey with
       | None => inl ErrX25519
       | Some shared => inr shared
       end.

(** The three-byte big-endian length that frames a payload. *)
Definition frame_length (payloadLen : Z) : list byte :=
  byte_of_Z (Z.shiftr payloadLen 16) :: BE16 (wrap16 (Z.land payloadLen 0xFFFF)).

(** [GenerateClientHello()]. *)
Definition GenerateClientHello (n : NoiseHandler) : list byte :=
  let clientHelloProto := Protobuf.EncodeClientHello (ephemeralPublic n) in
  let header := NoiseHeader in
  let payloadLen := len clientHelloProto in
  header ++ frame_length payloadLen ++ clientHelloProto.

(** The second half of [ProcessServerHello]: the server's encrypted static
    key, when at least 48 bytes of it are present.  Every failure on this
    path is dropped: the function goes on to return nil. *)
Definition process_static (static : list byte) (n : NoiseHandler)
  : NoiseHandler :=
  if len static >=? 48 then
    match decrypt (take 48 static) n with
    | (inr decryptedStatic, n) =>
        if len decryptedStatic =? 32 then
          match dh (ephemeralPrivate n) decryptedStatic with
          | inr shared2 => snd (mixIntoKey shared2 n)
          | inl _ => n
          end
        else n
    | (inl _, n) => n
    end
  else n.

(** [ProcessServerHello(data)]: the error returned (nil is [None]) and the
    handler afterwards. *)
Definition ProcessServerHello (data : list byte) (n : NoiseHandler)
  : run (option NoiseErr * NoiseHandler) :=
  if len data <? 32 then Done (Some ErrServerHelloTooShort, n)
  else
    decoded ← Protobuf.DecodeServerHello data;
    let serverHello :=
      if negb (len (Protobuf.Ephemeral decoded) =? 32)
      then Protobuf.mkServerHello (take 32 data)
             (if len data >? 32 then drop 32 data else []) []
      else decoded in
    let n := set_serverEphemeral (Protobuf.Ephemeral serverHello) n in
    let n := authenticate (Protobuf.Ephemeral serverHello) n in
    match dh (ephemeralPrivate n) (Protobuf.Ephemeral serverHello) with
    | inl e => Done (Some (ErrDH1 e), n)
    | inr shared1 =>
        match mixIntoKey shared1 n with
        | (Some e, n) => Done (Some (ErrMixIntoKey e), n)
        | (None, n) => Done (None, process_static (Protobuf.Static serverHello) n)
        end
    end.

(** [GenerateClientFinish()]; the payload is always empty in the source. *)
Definition GenerateClientFinish (n : NoiseHandler)
  : (NoiseErr + list byte) * NoiseHandler :=
  match encrypt (staticPublic n) n with
  | (inl e, n) => (inl e, n)
  | (inr encryptedStaticKey, n) =>
      let n :=
        if len (serverEphemeral n) =? 32 then
          match dh (staticPrivate n) (serverEphemeral n) with
          | inr shared3 => snd (mixIntoKey shared3 n)
          | inl _ => n
          end
        else n in
      let payload : list byte := [] in
      let clientFinishProto :=
        Protobuf.EncodeClientFinish encryptedStaticKey payload in
      match finishInit n with
      | (Some e, n) => (inl e, n)
      | (None, n) => (inr clientFinishProto, n)
      end
  end.

(** [EncodeFrame(data)]. *)
Definition EncodeFrame (data : list byte) (n : NoiseHandler)
  : (NoiseErr + list byte) * NoiseHandler :=
  let r := if isFinished n then encrypt data n else (inr data, n) in
  match r with
  | (inl e, n) => (inl e, n)
  | (inr payload, n) => (inr (frame_length (len payload) ++ payload), n)
  end.

(** The loop of [DecodeFrame] over the frame buffer; every round removes at
    least the three length bytes, so the buffer's length bounds the rounds. *)
Fixpoint DecodeFrame_loop (fuel : nat) (frames : list (list byte))
    (n : NoiseHandler) : (list (list byte) * option NoiseErr) * NoiseHandler :=
  match fuel, frameBuffer n with
  | S fuel, b0 :: b1 :: b2 :: rest =>
      let size := Z.lor (Z.shiftl (byte_to_Z b0) 16)
                        (Z.lor (Z.shiftl (byte_to_Z b1) 8) (byte_to_Z b2)) in
      if len (frameBuffer n) <? 3 + size then ((frames, None), n)
      else
        let frame := take (Z.to_nat size) rest in
        let n := set_frameBuffer (drop (Z.to_nat size) rest) n in
        if isFinished n then
          match decrypt frame n with
          | (inl e, n) => ((frames, Some e), n)
          | (inr decrypted, n) => DecodeFrame_loop fuel (frames ++ [decrypted]) n
          end
        else DecodeFrame_loop fuel (frames ++ [frame]) n
  | _, _ => ((frames, None), n)
  end.

(** [DecodeFrame(data)]. *)
Definition DecodeFrame (data : list byte) (n : NoiseHandler)
  : (list (list byte) * option NoiseErr) * NoiseHandler :=
  let n := set_frameBuffer (frameBuffer n ++ data) n in
  DecodeFrame_loop (length (frameBuffer n)) [] n.

(** [IsHandshakeComplete()]. *)
Definition IsHandshakeComplete (n : NoiseHandler) : bool := isFinished n.

(** [Encrypt(data)], the public method: no error is reported. *)
Definition Encrypt (data : list byte) (n : NoiseHandler)
  : list byte * NoiseHandler :=
  if negb (isFinished n) then (data, n)
  else match encrypt data n with
       | (inl _, n) => (data, n)
       | (inr encrypted, n) => (encrypted, n)
       end.

(** [Decrypt(data)], the public method: no error is reported. *)
Definition Decrypt (data : list byte) (n : NoiseHandler)
  : list byte * NoiseHandler :=
  if negb (isFinished n) then (data, n)
  else match decrypt data n with
       | (inl _, n) => (data, n)
       | (inr decrypted, n) => (decrypted, n)
       end.

(** Every use of the AEAD goes through [encrypt] or [decrypt]: the public
    methods [Encrypt], [Decrypt], [EncodeFrame], [DecodeFrame],
    [ProcessServerHello] and [GenerateClientFinish] call nothing else.  A
    sequence of such calls with no key change in between is a list of
    [AeadOp]; [calls_of] is what the sequence adds to the log. *)
Inductive AeadOp : Type :=
| DoEncrypt (plaintext : list byte)
| DoDecrypt (ciphertext : list byte).

Definition aead_step (n : NoiseHandler) (op : AeadOp) : NoiseHandler :=
  match op with
  | DoEncrypt plaintext => snd (encrypt plaintext n)
  | DoDecrypt ciphertext => snd (decrypt ciphertext n)
  end.

Definition aead_run (ops : list AeadOp) (n : NoiseHandler) : NoiseHandler :=
  fold_left aead_step ops n.

Definition calls_of (ops : list AeadOp) (n : NoiseHandler) : list AeadCall :=
  drop (length (aead_log n)) (aead_log (aead_run ops n)).

(** The calls a run makes, one operation at a time. *)
Fixpoint trace (ops : list AeadOp) (n : NoiseHandler) : list AeadCall :=
  match ops with
  | [] => []
  | op :: ops =>
      drop (length (aead_log n)) (aead_log (aead_step n op))
        ++ trace ops (aead_step n op)
  end.

(** A call made from state [n] within [k] operations: it drew on the write
    counter or, in transport mode, on the read counter with the receiving
    key, at most [k - 1] steps ahead of the counter's value in [n]. *)
Definition from_state (n : NoiseHandler) (k : Z) (c : AeadCall) : Prop :=
  (exists j, 0 <= j < k
     /\ call_nonce c = generateIV ((writeCounter n + j) mod 2 ^ 32)
     /\ (isFinished n = true -> call_key c = encKey n))
  \/ (isFinished n = true
      /\ exists j, 0 <= j < k
           /\ call_nonce c = generateIV ((readCounter n + j) mod 2 ^ 32)
           /\ call_key c = decKey n).

End Handler.
(** The state the transport phase fixes. *)
Definition same_session (n n' : NoiseHandler) : Prop :=
  isFinished n' = isFinished n /\ encKey n' = encKey n /\ decKey n' = decKey n
  /\ hash n' = hash n /\ salt n' = salt n.

End Noise.

(** ** The QR pairing string and the base64 encoder of [qrcode.go] *)

Module QR.

Local Open Scope string_scope.

(** The alphabet constant [b64] of [encodeBase64]. *)
Definition b64 : string :=
  "ABCDEFGHIJKLMNOPQRSTUVWXYZabcdefghijklmnopqrstuvwxyz0123456789+/".

(** The indexing expression [b64[i]]. *)
Definition b64_at (i : Z) : ascii :=
  nth (Z.to_nat i) (list_ascii_of_string b64) "000"%char.

Definition pad_char : ascii := "="%char.

(** [encodeBase64(data)]: the loop takes the input three bytes at a time;
    [remaining] is the length of what is left from index [i] on. *)
Fixpoint encodeBase64 (data : list byte) : string :=
  match data with
  | [] => ""
  | d0 :: d1 :: d2 :: rest =>
      let b := Z.lor (Z.lor (wrap32 (Z.shiftl (byte_to_Z d0) 16))
                            (wrap32 (Z.shiftl (byte_to_Z d1) 8)))
                     (byte_to_Z d2) in
      String (b64_at (Z.land (Z.shiftr b 18) 0x3F))
        (String (b64_at (Z.land (Z.shiftr b 12) 0x3F))
           (String (b64_at (Z.land (Z.shiftr b 6) 0x3F))
              (String (b64_at (Z.land b 0x3F)) (encodeBase64 rest))))
  | [d0; d1] =>
      let b := Z.lor (wrap32 (Z.shiftl (byte_to_Z d0) 16))
                     (wrap32 (Z.shiftl (byte_to_Z d1) 8)) in
      String (b64_at (Z.land (Z.shiftr b 18) 0x3F))
        (String (b64_at (Z.land (Z.shiftr b 12) 0x3F))
           (String (b64_at (Z.land (Z.shiftr b 6) 0x3F))
              (String pad_char "")))
  | [d0] =>
      let b := wrap32 (Z.shiftl (byte_to_Z d0) 16) in
      String (b64_at (Z.land (Z.shiftr b 18) 0x3F))
        (String (b64_at (Z.land (Z.shiftr b 12) 0x3F))
           (String pad_char (String pad_char "")))
  end.

(** [generateRef()]: the clock reading in milliseconds, in decimal. *)
Definition generateRef (unixMilli : Z) : string := pretty unixMilli.

(** [generateQRData()], given the clock reading, the handler's ephemeral
    public key and the configured session identifier. *)
Definition generateQRData (unixMilli : Z) (publicKey : list byte)
    (sessionID : string) : string :=
  let ref := generateRef unixMilli in
  let pubKey := encodeBase64 publicKey in
  "2@" ++ ref ++ "," ++ pubKey ++ "," ++ sessionID.

End QR.

(** ** Base64 as RFC 4648 defines it

    The reference the encoder is compared with, written from the RFC's
    words: the input is read as a stream of bits, most significant bit
    first; every group of six bits selects a letter of the alphabet; a last
    group that is short is completed with zero bits; the output is completed
    with [=] to a multiple of four letters. *)

Module RFC4648.

Local Open Scope string_scope.

Definition alphabet : list ascii :=
  list_ascii_of_string
    ("ABCDEFGHIJKLMNOPQRSTUVWXYZ" ++ "abcdefghijklmnopqrstuvwxyz"
       ++ "0123456789" ++ "+/").

Definition bits_of_byte (b : byte) : list bool :=
  map (Z.testbit (byte_to_Z b)) [7; 6; 5; 4; 3; 2; 1; 0]%Z.

(** The eight bits of a byte, by name. *)
Definition bit (b : byte) (i : Z) : bool := Z.testbit (byte_to_Z b) i.

Definition bit_stream (data : list byte) : list bool :=
  concat (map bits_of_byte data).

(** The number a group of bits denotes, most significant bit first. *)
Definition value_of_bits (bits : list bool) : Z :=
  fold_left (fun acc (b : bool) => 2 * acc + Z.b2z b)%Z bits 0%Z.

(** The stream cut into groups of six, the last completed with zeros. *)
Fixpoint sextets (bits : list bool) : list (list bool) :=
  match bits with
  | [] => []
  | b0 :: b1 :: b2 :: b3 :: b4 :: b5 :: rest =>
      [b0; b1; b2; b3; b4; b5] :: sextets rest
  | short => [take 6 (short ++ replicate 6 false)]
  end.

Definition letter (bits : list bool) : ascii :=
  nth (Z.to_nat (value_of_bits bits)) alphabet "000"%char.

Definition padding (letters : nat) : list ascii :=
  replicate ((4 - letters mod 4) mod 4) "="%char.

Definition base64 (data : list byte) : string :=
  let letters := map letter (sextets (bit_stream data)) in
  string_of_list_ascii (letters ++ padding (length letters)).

End RFC4648.

(** ** The binary-node codec *)

Module Node.

Local Open Scope string_scope.

(** [tagDictionary]. *)
Definition tagDictionary : list string := [
  ""; ""; ""; ""; ""; ""; ""; ""; ""; ""; ""; ""; ""; ""; ""; ""; ""; ""; "";
  ""; ""; ""; ""; ""; ""; ""; ""; ""; ""; ""; ""; ""; ""; ""; ""; ""; ""; "";
  ""; ""; ""; ""; ""; ""; ""; ""; ""; ""; "1"; "2"; "3"; "4"; "5"; "6"; "7";
  "8"; "9"; "10"; "11"; "12"; "13"; "14"; "15"; "16"; "17"; "18"; "19"; "20";
  "21"; "22"; "23"; "24"; "25"; "26"; "27"; "28"; "29"; "30"; "account";
  "ack"; "action"; "active"; "add"; "after"; "all"; "allow"; "and";
  "android"; "announce"; "archive"; "available"; "battery"; "before";
  "block"; "body"; "broadcast"; "call"; "call-creator"; "call-id"; "cancel";
  "caption"; "chat"; "child"; "clear"; "code"; "composing"; "config";
  "contact"; "contacts"; "count"; "create"; "creator"; "decrypt"; "delete";
  "demote"; "description"; "device"; "devices"; "disappearing"; "done";
  "download"; "edit"; "elapsed"; "encoding"; "encrypt"; "end"; "ephemeral";
  "error"; "event"; "exit"; "exposure"; "failure"; "false"; "fan_out";
  "file"; "filename"; "format"; "from"; "full"; "g.us"; "get"; "gif";
  "group"; "groups"; "hash"; "height"; "host"; "id"; "image"; "in";
  "inactive"; "index"; "info"; "interactive"; "invite"; "ios"; "iq"; "is";
  "item"; "items"; "jid"; "keep"; "key"; "keyvalue"; "keys"; "kind"; "large";
  "last"; "leave"; "limit"; "linked"; "list"; "live"; "location"; "locked";
  "md"; "media"; "media_type"; "member"; "merry"; "message"; "messages";
  "meta"; "mime"; "mirror"; "mms"; "modify"; "msg"; "mute"; "name";
  "network"; "new"; "news"; "newsletter"; "none"; "not"; "notification";
  "notify"; "number"; "of"; "offline"; "opt"; "order"; "out"; "owner";
  "paid"; "pairing"; "participant"; "participants"; "paused"; "phash";
  "phone"; "photo"; "picture"; "pin"; "pinned"; "platform"; "pn"; "preview";
  "previous"; "primary"; "private"; "promote"; "props"; "protocol"; "push";
  "pushname"; "query"; "quit"; "quote"; "rate"; "read"; "reason"; "receipt";
  "received"; "recipient"; "remove"; "removed"; "reply"; "report"; "request";
  "require"; "reset"; "resource"; "result"; "retry"; "revoke";
  "s.whatsapp.net"; "screen"; "search"; "sec"; "secret"; "seen"; "selected";
  "self"; "sender"; "serial"; "server"; "session"; "set"; "settings"; "sf";
  "shake"; "share"; "short"; "side"; "sig"; "silent"; "size"; "sky"; "slow";
  "smax"; "smbiz"; "source"; "sponsor"; "srcjid"; "starred"; "start";
  "status"; "sticky"; "storage"; "store"; "stop"; "subject"; "subscribe";
  "success"; "sync"; "system"; "t"; "tag"; "taken"; "target"; "template";
  "terminate"; "text"; "thread"; "ticket"; "time"; "timestamp"; "to";
  "token"; "true"; "type"; "unavailable"; "undefined"; "unique"; "unknown";
  "unlock"; "unread"; "until"; "update"; "upgrade"; "url"; "user"; "users";
  "v"; "value"; "version"; "video"; "voip"; "wa"; "web"; "webp"; "width";
  "write"; "xmlns"; "xmpp"; "you"; "years"
].

Local Close Scope string_scope.

(** The dynamic type of [BinaryNode.Content]: nil, [[]byte], [string] or a
    slice of node pointers (a nil pointer is [None]).  [encodeNode] writes
    nothing for a value of any other type. *)
Inductive BinaryNode : Type :=
| mkNode (Tag : string) (Attrs : gmap string string) (Content : content)
with content : Type :=
| ContentNil
| ContentBytes (b : list byte)
| ContentString (s : string)
| ContentNodes (children : list (option BinaryNode)).

Definition Tag (n : BinaryNode) : string :=
  match n with mkNode t _ _ => t end.
Definition Attrs (n : BinaryNode) : gmap string string :=
  match n with mkNode _ a _ => a end.
Definition Content (n : BinaryNode) : content :=
  match n with mkNode _ _ c => c end.

(** Go's [len(s)] of a string: its number of bytes. *)
Definition strlen (s : string) : Z := Z.of_nat (String.length s).

(** The search of [encodeString] through the dictionary: the first index
    [i] whose entry equals [s] and is not empty. *)
Fixpoint dict_index (dict : list string) (i : Z) (s : string) : option Z :=
  match dict with
  | [] => None
  | dictStr :: dict =>
      if String.eqb dictStr s && negb (String.eqb dictStr EmptyString) then Some i
      else dict_index dict (i + 1) s
  end.

(** [encodeString(buf, s)]: the bytes written to the buffer. *)
Definition encodeString (s : string) : list byte :=
  match dict_index tagDictionary 0 s with
  | Some i => [byte_of_Z i]
  | None =>
      if strlen s <? 128 then byte_of_Z (strlen s) :: bytes_of_string s
      else byte_of_Z 0xFD :: BE16 (wrap16 (strlen s)) ++ bytes_of_string s
  end.

(** [encodeBytes(buf, data)]. *)
Definition encodeBytes (data : list byte) : list byte :=
  (if len data <? 256 then [byte_of_Z (len data)]
   else byte_of_Z 0xFE :: BE32 (wrap32 (len data))) ++ data.

Section Encode.

(** The order in which [for key, val := range node.Attrs] visits the map;
    Go leaves it unspecified. *)
Variable rangeAttrs : gmap string string -> list (string * string).

(** [encodeNode(buf, node)] for a node that is not nil: the bytes written
    to the buffer.  A nil child is written as the single byte zero. *)
Fixpoint encodeNode_some (node : BinaryNode) : list byte :=
  match node with
  | mkNode tag attrs content =>
      let numAttrs := Z.of_nat (size attrs) in
      let hasContent := match content with ContentNil => false | _ => true end in
      let descriptor := Z.shiftl numAttrs 1 in
      let descriptor := if hasContent then Z.lor descriptor 1 else descriptor in
      [byte_of_Z descriptor]
        ++ encodeString tag
        ++ flat_map (fun kv => encodeString (fst kv) ++ encodeString (snd kv))
                    (rangeAttrs attrs)
        ++ match content with
           | ContentNil => []
           | ContentBytes b => encodeBytes b
           | ContentString s => encodeString s
           | ContentNodes children =>
               byte_of_Z (len children)
                 :: (fix each (l : list (option BinaryNode)) : list byte :=
                       match l with
                       | [] => []
                       | None :: l => [byte_of_Z 0x00] ++ each l
                       | Some child :: l => encodeNode_some child ++ each l
                       end) children
           end
  end.

(** [encodeNode(buf, node)]. *)
Definition encodeNode (node : option BinaryNode) : list byte :=
  match node with
  | None => [byte_of_Z 0x00]
  | Some node => encodeNode_some node
  end.

(** [EncodeBinaryNode(node)]. *)
Definition EncodeBinaryNode (node : option BinaryNode) : list byte :=
  encodeNode node.

End Encode.

(** A [bytes.Reader]: the slice it reads and the read position. *)
Record Reader : Type := mkReader {
  r_data : list byte;
  r_pos : nat;
}.

Inductive DecodeError : Type :=
| EOF.

(** [reader.ReadByte()]. *)
Definition ReadByte (r : Reader) : (DecodeError + byte) * Reader :=
  match r_data r !! r_pos r with
  | Some b => (inr b, mkReader (r_data r) (S (r_pos r)))
  | None => (inl EOF, r)
  end.

(** [reader.UnreadByte()]: the position steps back by one unless it is at
    the beginning, whatever the previous operation was. *)
Definition UnreadByte (r : Reader) : Reader :=
  mkReader (r_data r) (Nat.pred (r_pos r)).

(** [buf := make([]byte, length); reader.Read(buf)]: a buffer of [length]
    zero bytes, overwritten from the front with the bytes that are left. *)
Definition ReadBuf (length : Z) (r : Reader) : list byte * Reader :=
  let avail := take (Z.to_nat length) (drop (r_pos r) (r_data r)) in
  (avail ++ replicate (Z.to_nat length - List.length avail) x00,
   mkReader (r_data r) (r_pos r + List.length avail)).

Definition value_BE (bs : list byte) : Z :=
  fold_left (fun acc b => acc * 256 + byte_to_Z b)%Z bs 0%Z.

(** [binary.Read(reader, binary.BigEndian, &l)] for an unsigned integer of
    [k] bytes: when fewer than [k] bytes are left they are consumed, the
    read fails and [l] keeps its zero value. *)
Definition ReadUint (k : nat) (r : Reader) : Z * Reader :=
  let avail := take k (drop (r_pos r) (r_data r)) in
  (if List.length avail =? k then value_BE avail else 0%Z,
   mkReader (r_data r) (r_pos r + List.length avail))%nat.

(** [tagDictionary[b]] for an index within the dictionary. *)
Definition dict_at (b : Z) : string := nth (Z.to_nat b) tagDictionary EmptyString.

(** [decodeString(reader)]. *)
Definition decodeString (r : Reader) : (DecodeError + string) * Reader :=
  match ReadByte r with
  | (inl e, r) => (inl e, r)
  | (inr b, r) =>
      let b := byte_to_Z b in
      if (b <? len tagDictionary)%Z && negb (String.eqb (dict_at b) EmptyString)
      then (inr (dict_at b), r)
      else
        let '(length, r) :=
          if (b =? 0xFD)%Z then ReadUint 2 r else (b, r) in
        let '(buf, r) := ReadBuf length r in
        (inr (string_of_bytes buf), r)
  end.

(** [decodeBytes(reader)]. *)
Definition decodeBytes (r : Reader) : (DecodeError + list byte) * Reader :=
  match ReadByte r with
  | (inl e, r) => (inl e, r)
  | (inr b, r) =>
      let b := byte_to_Z b in
      let '(length, r) := if (b =? 0xFE)%Z then ReadUint 4 r else (b, r) in
      let '(buf, r) := ReadBuf length r in
      (inr buf, r)
  end.

(** The attribute loop of [decodeNode]: [numAttrs] key-value pairs read
    into the map. *)
Fixpoint decodeAttrs (numAttrs : nat) (attrs : gmap string string)
    (r : Reader) : (DecodeError + gmap string string) * Reader :=
  match numAttrs with
  | O => (inr attrs, r)
  | S k =>
      match decodeString r with
      | (inl e, r) => (inl e, r)
      | (inr key, r) =>
          match decodeString r with
          | (inl e, r) => (inl e, r)
          | (inr val, r) => decodeAttrs k (<[key := val]> attrs) r
          end
      end
  end.

(** [decodeNode(reader)].  Every call reads its descriptor byte first, so
    the nesting of calls is bounded by the length of the input; [fuel]
    bounds the nesting and [None] means it ran out.  The result is the
    node pointer (nil is [None]) or the error. *)
Fixpoint decodeNode (fuel : nat) (r : Reader)
  : option ((DecodeError + option BinaryNode) * Reader) :=
  match fuel with
  | O => None
  | S fuel =>
      match ReadByte r with
      | (inl e, r) => Some (inl e, r)
      | (inr descriptor, r) =>
          let descriptor := byte_to_Z descriptor in
          if (descriptor =? 0x00)%Z then Some (inr None, r)
          else
            let numAttrs := Z.shiftr descriptor 1 in
            let hasContent := (Z.land descriptor 1 =? 1)%Z in
            match decodeString r with
            | (inl e, r) => Some (inl e, r)
            | (inr tag, r) =>
                match decodeAttrs (Z.to_nat numAttrs) ∅ r with
                | (inl e, r) => Some (inl e, r)
                | (inr attrs, r) =>
                    if negb hasContent
                    then Some (inr (Some (mkNode tag attrs ContentNil)), r)
                    else
                      let contentType :=
                        match fst (ReadByte r) with
                        | inr b => byte_to_Z b
                        | inl _ => 0%Z
                        end in
                      let r := UnreadByte (snd (ReadByte r)) in
                      if (contentType <? 128)%Z then
                        let count :=
                          match fst (ReadByte r) with
                          | inr b => byte_to_Z b
                          | inl _ => 0%Z
                          end in
                        let r := snd (ReadByte r) in
                        (fix each (k : nat) (children : list (option BinaryNode))
                             (r : Reader) :=
                           match k with
                           | O => Some (inr (Some (mkNode tag attrs
                                                      (ContentNodes children))), r)
                           | S k =>
                               match decodeNode fuel r with
                               | None => None
                               | Some (inl e, r) => Some (inl e, r)
                               | Some (inr child, r) =>
                                   each k (children ++ [child]) r
                               end
                           end) (Z.to_nat count) [] r
                      else
                        match decodeBytes r with
                        | (inl e, r) => Some (inl e, r)
                        | (inr data, r) =>
                            Some (inr (Some (mkNode tag attrs (ContentBytes data))), r)
                        end
                end
            end
      end
  end.

(** [DecodeBinaryNode(data)]. *)
Definition DecodeBinaryNode (data : list byte)
  : option (DecodeError + option BinaryNode) :=
  match decodeNode (S (length data)) (mkReader data 0) with
  | Some (res, _) => Some res
  | None => None
  end.

End Node.

(** ** The session manager *)

Module Client.

Inductive SessionStatus : Type :=
| StatusInitializing
| StatusConnecting
| StatusQRReady
| StatusReady
| StatusDisconnected.

Inductive SessionError : Type :=
| ErrSessionExists
| ErrSessionNotFound
| ErrNotConnected.

(** [WAClient]: the identifier and the fields the manager's operations
    touch.  The connection, the callbacks and the counters are left out. *)
Record WAClient : Type := mkClient {
  ID : string;
  status : SessionStatus;
  qrCode : string;
  dataDir : string;
}.

(** [NewWAClient(sessionID, logger, dataDir)]. *)
Definition NewWAClient (sessionID dataDir : string) : WAClient :=
  mkClient sessionID StatusInitializing EmptyString dataDir.

(** [Disconnect()]. *)
Definition Disconnect (c : WAClient) : WAClient :=
  mkClient (ID c) StatusDisconnected EmptyString (dataDir c).

(** [SessionManager].  The map holds one client object per identifier;
    [removed] lists, in order, the session directories (data directory and
    session identifier) handed to [os.RemoveAll]. *)
Record SessionManager : Type := mkManager {
  sessions : gmap string WAClient;
  sm_dataDir : string;
  removed : list (string * string);
}.

(** [NewSessionManager(logger)], given the value of [SESSION_DIR] in the
    environment. *)
Definition NewSessionManager (envSessionDir : string) : SessionManager :=
  let dataDir :=
    if String.eqb envSessionDir EmptyString then "./sessions"%string
    else envSessionDir in
  mkManager ∅ dataDir [].

(** [CreateSession(sessionID)].  The connection the source then starts in
    the background works on the new client only and is not part of the
    model. *)
Definition CreateSession (sessionID : string) (sm : SessionManager)
  : (SessionError + WAClient) * SessionManager :=
  match sessions sm !! sessionID with
  | Some _ => (inl ErrSessionExists, sm)
  | None =>
      let client := NewWAClient sessionID (sm_dataDir sm) in
      (inr client,
       mkManager (<[sessionID := client]> (sessions sm)) (sm_dataDir sm)
                 (removed sm))
  end.

(** [GetSession(sessionID)]. *)
Definition GetSession (sessionID : string) (sm : SessionManager)
  : option WAClient :=
  sessions sm !! sessionID.

(** [DeleteSession(sessionID)]: the error returned, nil being [None]. *)
Definition DeleteSession (sessionID : string) (sm : SessionManager)
  : option SessionError * SessionManager :=
  match sessions sm !! sessionID with
  | None => (Some ErrSessionNotFound, sm)
  | Some client =>
      (None,
       mkManager (delete sessionID (sessions sm)) (sm_dataDir sm)
                 (removed sm ++ [(sm_dataDir sm, sessionID)]))
  end.

(** [DisconnectAll()]. *)
Definition DisconnectAll (sm : SessionManager) : SessionManager :=
  mkManager (Disconnect <$> sessions sm) (sm_dataDir sm) (removed sm).

(** The calls a caller can make on the manager, and a sequence of them run
    in order. *)
Inductive Op : Type :=
| OpCreate (sessionID : string)
| OpDelete (sessionID : string)
| OpDisconnectAll.

Definition step (sm : SessionManager) (op : Op) : SessionManager :=
  match op with
  | OpCreate id => snd (CreateSession id sm)
  | OpDelete id => snd (DeleteSession id sm)
  | OpDisconnectAll => DisconnectAll sm
  end.

Definition run_ops (ops : list Op) (sm : SessionManager) : SessionManager :=
  fold_left step ops sm.

(** Every client is stored under its own identifier. *)
Definition ids_match (sm : SessionManager) : Prop :=
  forall id c, sessions sm !! id = Some c -> ID c = id.

End Client.

(** ** A stand-in for the cryptographic libraries

    To run the handler on concrete inputs the interface [Crypto] needs an
    instance.  SHA-256 and HKDF are the functions of [SHA256] above.  The
    AEAD and the Diffie-Hellman function are stand-ins of the right shape,
    not AES-GCM and X25519: [Seal] appends a 16-byte tag computed with HMAC
    over the nonce, the additional data and the text, and [Open] returns the
    text exactly when the tag it recomputes is the one received. *)

Module Standin.

Definition same_bytes (a b : list byte) : bool :=
  bool_decide (map byte_to_Z a = map byte_to_Z b).

Definition tag_of (key iv text aad : list byte) : list byte :=
  take 16 (SHA256.hmac key (iv ++ aad ++ text)).

Definition seal (key iv plaintext aad : list byte) : list byte :=
  plaintext ++ tag_of key iv plaintext aad.

Definition open (key iv ciphertext aad : list byte) : option (list byte) :=
  if len ciphertext <? 16 then None
  else
    let text := take (length ciphertext - 16) ciphertext in
    let tag := drop (length ciphertext - 16) ciphertext in
    if same_bytes tag (tag_of key iv text aad) then Some text else None.

#[local] Instance crypto : Crypto := {|
  sha256 := SHA256.sum256;
  gcm_seal := seal;
  gcm_open := open;
  hkdf_read := fun secret salt n =>
    if (n <=? 64)%nat then Some (take n (SHA256.hkdf64 secret salt)) else None;
  x25519 := fun scalar point => Some (SHA256.sum256 (scalar ++ point));
|}.

(** Concrete key material and a client handler to run. *)
Definition bytes_from (start : Z) (k : nat) : list byte :=
  map (fun i => byte_of_Z (start + Z.of_nat i)) (seq 0 k).

Definition client : Noise.NoiseHandler :=
  Eval vm_compute in
    Noise.NewNoiseHandler (bytes_from 1 32) (bytes_from 33 32)
                          (bytes_from 65 32) (bytes_from 97 32).

(** The server's ephemeral and static public keys. *)
Definition server_ephemeral : list byte := Eval vm_compute in bytes_from 129 32.
Definition server_static : list byte := Eval vm_compute in bytes_from 161 32.

(** A server hello that carries the ephemeral key only, and the client
    after processing it: the state in which the encrypted static key of a
    full server hello is decrypted. *)
Definition hello_ephemeral_only : list byte :=
  Eval vm_compute in
    Protobuf.pbEncodeBytes Protobuf.fieldServerHello
      (Protobuf.pbEncodeBytes Protobuf.fieldEphemeral server_ephemeral).

Definition client_after_ephemeral : Noise.NoiseHandler :=
  Eval vm_compute in
    match Noise.ProcessServerHello hello_ephemeral_only client with
    | Done (_, n) => n
    | _ => client
    end.

(** The server's static key sealed for that state (32 bytes and the tag),
    and the same segment with the lowest bit of its first byte flipped. *)
Definition sealed_static : list byte :=
  Eval vm_compute in
    seal (Noise.decKey client_after_ephemeral)
         (Noise.generateIV (Noise.writeCounter client_after_ephemeral))
         server_static (Noise.hash client_after_ephemeral).

Definition flip_first_bit (l : list byte) : list byte :=
  match l with
  | [] => []
  | b :: l => byte_of_Z (Z.lxor (byte_to_Z b) 1) :: l
  end.

Definition flipped_static : list byte :=
  Eval vm_compute in flip_first_bit sealed_static.

(** A full server hello around a static segment. *)
Definition server_hello (static : list byte) : list byte :=
  Protobuf.pbEncodeBytes Protobuf.fieldServerHello
    (Protobuf.pbEncodeBytes Protobuf.fieldEphemeral server_ephemeral
       ++ Protobuf.pbEncodeBytes Protobuf.fieldStatic static).

Definition hello_genuine : list byte :=
  Eval vm_compute in server_hello sealed_static.
Definition hello_flipped : list byte :=
  Eval vm_compute in server_hello flipped_static.

(** The client once the handshake has run to its end on the genuine server
    hello: a handler in transport mode. *)
Definition transport_client : Noise.NoiseHandler :=
  Eval vm_compute in
    match Noise.ProcessServerHello hello_genuine client with
    | Done (_, n) => snd (Noise.GenerateClientFinish n)
    | _ => client
    end.

(** A transport message for that client, and the message with one bit
    flipped. *)
Definition transport_message : list byte :=
  Eval vm_compute in
    seal (Noise.decKey transport_client)
         (Noise.generateIV (Noise.readCounter transport_client))
         (bytes_of_string "hello") (Noise.hash transport_client).

Definition flipped_message : list byte :=
  Eval vm_compute in flip_first_bit transport_message.

(** The client after processing the server hello whose static segment was
    flipped. *)
Definition client_after_flipped : Noise.NoiseHandler :=
  Eval vm_compute in
    match Noise.ProcessServerHello hello_flipped client with
    | Done (_, n) => n
    | _ => client
    end.

End Standin.

(* ===================================================================== *)
(** * Part II: lemmas and theorems                                        *)
(* ===================================================================== *)

(** ** Bytes *)

Lemma byte_to_Z_range (b : byte) : 0 <= byte_to_Z b < 256.
Proof.
  unfold byte_to_Z. pose proof (Byte.to_N_bounded b) as Hb. lia.
Qed.

Lemma byte_of_to (b : byte) : byte_of_Z (byte_to_Z b) = b.
Proof.
  unfold byte_of_Z. pose proof (byte_to_Z_range b) as Hb.
  rewrite Z.mod_small by lia. unfold byte_to_Z.
  rewrite N2Z.id, Byte.of_to_N. reflexivity.
Qed.

Lemma byte_to_of (z : Z) : byte_to_Z (byte_of_Z z) = z mod 256.
Proof.
  unfold byte_of_Z, byte_to_Z.
  pose proof (Z.mod_pos_bound z 256 ltac:(lia)) as Hm.
  destruct (Byte.of_N (Z.to_N (z mod 256))) as [b|] eqn:E.
  - apply Byte.to_of_N in E. rewrite E. lia.
  - apply Byte.of_N_None_iff in E. lia.
Qed.

Lemma byte_to_of_small (z : Z) : 0 <= z < 256 -> byte_to_Z (byte_of_Z z) = z.
Proof. intros Hz. rewrite byte_to_of. apply Z.mod_small. assumption. Qed.

Lemma len_app {A} (l1 l2 : list A) : len (l1 ++ l2) = len l1 + len l2.
Proof. unfold len. rewrite length_app. lia. Qed.

Lemma len_cons {A} (x : A) (l : list A) : len (x :: l) = 1 + len l.
Proof. unfold len. simpl length. lia. Qed.

Lemma len_nonneg {A} (l : list A) : 0 <= len l.
Proof. unfold len. lia. Qed.

(** Bits that do not overlap: the [|] of the source is an addition. *)
Lemma lor_shiftl_add (lo hi k : Z) :
  0 <= k -> 0 <= lo < 2 ^ k -> 0 <= hi ->
  Z.lor lo (Z.shiftl hi k) = lo + hi * 2 ^ k.
Proof.
  intros Hk Hlo Hhi.
  rewrite Z.shiftl_mul_pow2 by lia.
  symmetry. apply Z.add_nocarry_lor.
  apply Z.bits_inj'. intros i Hi.
  rewrite Z.land_spec, Z.bits_0.
  destruct (Z.lt_ge_cases i k) as [Hlt|Hge].
  - rewrite Z.mul_pow2_bits_low by lia. apply andb_false_r.
  - replace lo with (lo mod 2 ^ k) by (apply Z.mod_small; lia).
    rewrite Z.mod_pow2_bits_high by lia. reflexivity.
Qed.

Lemma land_0x7F (x : Z) : Z.land x 0x7F = x mod 128.
Proof. change 0x7F with (Z.ones 7). rewrite Z.land_ones by lia. reflexivity. Qed.

Lemma land_0x3F (x : Z) : Z.land x 0x3F = x mod 64.
Proof. change 0x3F with (Z.ones 6). rewrite Z.land_ones by lia. reflexivity. Qed.

(** ** Varints *)

Section VarintFacts.
Import Protobuf.

Lemma encodeVarint_loop_pos (n : Z) :
  n > 0 ->
  encodeVarint_loop n =
    byte_of_Z (if Z.shiftr n 7 >? 0 then Z.lor (Z.land n 0x7F) 0x80
               else Z.land n 0x7F)
      :: encodeVarint_loop (Z.shiftr n 7).
Proof.
  intros Hn. rewrite encodeVarint_loop_equation_1.
  destruct (Z_gt_dec n 0); [reflexivity | contradiction].
Qed.

Lemma encodeVarint_loop_nonpos (n : Z) : n <= 0 -> encodeVarint_loop n = [].
Proof.
  intros Hn. rewrite encodeVarint_loop_equation_1.
  destruct (Z_gt_dec n 0); [lia | reflexivity].
Qed.

(** The low seven bits and the rest of a positive number. *)
Lemma split7 (n : Z) :
  0 <= n ->
  Z.land n 0x7F = n mod 128 /\ Z.shiftr n 7 = n / 128 /\
  0 <= n mod 128 < 128 /\ 0 <= n / 128 /\ n = n mod 128 + n / 128 * 128.
Proof.
  intros Hn. repeat split.
  - apply land_0x7F.
  - rewrite Z.shiftr_div_pow2 by lia. reflexivity.
  - apply Z.mod_pos_bound. lia.
  - apply Z.mod_pos_bound. lia.
  - apply Z.div_pos; lia.
  - pose proof (Z.div_mod n 128 ltac:(lia)). lia.
Qed.

(** The continuation byte [b | 0x80] of a seven-bit [b]. *)
Lemma lor_0x80 (b : Z) : 0 <= b < 128 -> Z.lor b 0x80 = b + 128.
Proof.
  intros Hb. change (Z.lor b 0x80) with (Z.lor b (Z.shiftl 1 7)).
  rewrite lor_shiftl_add; change (2 ^ 7) with 128; lia.
Qed.

Lemma land_0x7F_high (b : Z) : 0 <= b < 128 -> Z.land (b + 128) 0x7F = b.
Proof.
  intros Hb. rewrite land_0x7F.
  rewrite <- (Z.mod_small b 128) at 2 by lia.
  replace (b + 128) with (b + 1 * 128) by lia. apply Z.mod_add. lia.
Qed.

Lemma land_0x7F_low (b : Z) : 0 <= b < 128 -> Z.land b 0x7F = b.
Proof.
  intros Hb. rewrite land_0x7F. apply Z.mod_small. lia.
Qed.

(** The decoder's loop run over the encoder's output, started in the middle
    of a number: [acc] holds the digits read so far, below [2^shift]. *)
Lemma decode_encode_loop (n : Z) :
  0 < n ->
  forall acc shift i rest,
    0 <= shift -> 0 <= acc < 2 ^ shift -> n * 2 ^ shift < 2 ^ 64 ->
    decodeVarint_loop (encodeVarint_loop n ++ rest) acc shift i =
      (acc + n * 2 ^ shift, i + len (encodeVarint_loop n)).
Proof.
  induction n as [n IH] using (well_founded_induction (Z.lt_wf 0)).
  intros Hn acc shift i rest Hs Hacc Hbound.
  destruct (split7 n ltac:(lia)) as (Eland & Eshr & Hlo & Hhi & Hsplit).
  rewrite encodeVarint_loop_pos by lia.
  rewrite Eland, Eshr.
  assert (Hp : 0 < 2 ^ shift) by (apply Z.pow_pos_nonneg; lia).
  assert (Hlow : n mod 128 * 2 ^ shift < 2 ^ 64) by nia.
  assert (Hwrap : wrap64 (Z.shiftl (n mod 128) shift) = n mod 128 * 2 ^ shift).
  { unfold wrap64. rewrite Z.shiftl_mul_pow2 by lia.
    apply Z.mod_small. nia. }
  destruct (n / 128 >? 0) eqn:Emore.
  - (* a continuation byte, more digits follow *)
    apply Z.gtb_lt in Emore.
    rewrite lor_0x80 by lia.
    simpl app. cbn [decodeVarint_loop].
    rewrite byte_to_of_small by lia.
    rewrite land_0x7F_high by lia.
    replace (n mod 128 + 128 <? 128) with false by (symmetry; apply Z.ltb_ge; lia).
    assert (Hshift : shift + 7 < 64).
    { apply (Z.pow_lt_mono_r_iff 2); [lia | lia |].
      rewrite Z.pow_add_r by lia. change (2 ^ 7) with 128. nia. }
    replace (shift + 7 >=? 64) with false
      by (symmetry; rewrite Z.geb_leb; apply Z.leb_gt; lia).
    rewrite Z.shiftl_mul_pow2 by lia.
    fold (wrap64 (n mod 128 * 2 ^ shift)).
    rewrite Z.shiftl_mul_pow2 in Hwrap by lia. rewrite Hwrap.
    rewrite <- (Z.shiftl_mul_pow2 (n mod 128) shift) by lia.
    rewrite lor_shiftl_add by lia.
    assert (Hpow : 2 ^ (shift + 7) = 2 ^ shift * 128)
      by (rewrite Z.pow_add_r by lia; reflexivity).
    rewrite IH.
    + rewrite len_cons. f_equal; [rewrite Hpow; nia | lia].
    + split; [lia | apply Z.div_lt; lia].
    + lia.
    + lia.
    + rewrite Hpow. nia.
    + rewrite Hpow. nia.
  - (* the last byte *)
    rewrite Z.gtb_ltb in Emore. apply Z.ltb_ge in Emore.
    assert (Hz : n / 128 = 0) by lia.
    rewrite Hz, encodeVarint_loop_nonpos by lia.
    simpl app. cbn [decodeVarint_loop].
    rewrite byte_to_of_small by lia.
    rewrite land_0x7F_low by lia.
    replace (n mod 128 <? 128) with true by (symmetry; apply Z.ltb_lt; lia).
    rewrite Z.shiftl_mul_pow2 by lia.
    fold (wrap64 (n mod 128 * 2 ^ shift)).
    rewrite Z.shiftl_mul_pow2 in Hwrap by lia. rewrite Hwrap.
    rewrite <- (Z.shiftl_mul_pow2 (n mod 128) shift) by lia.
    rewrite lor_shiftl_add by lia.
    rewrite len_cons. unfold len. simpl length.
    f_equal; nia.
Qed.

(** The length of an encoding: one byte per seven binary digits. *)
Lemma encodeVarint_loop_len (n : Z) :
  0 < n ->
  let k := len (encodeVarint_loop n) in
  1 <= k /\ 2 ^ (7 * (k - 1)) <= n < 2 ^ (7 * k).
Proof.
  induction n as [n IH] using (well_founded_induction (Z.lt_wf 0)).
  intros Hn.
  destruct (split7 n ltac:(lia)) as (Eland & Eshr & Hlo & Hhi & Hsplit).
  rewrite encodeVarint_loop_pos by lia. rewrite Eshr.
  cbv zeta. rewrite len_cons.
  destruct (Z.eq_dec (n / 128) 0) as [Hz|Hnz].
  - rewrite Hz, encodeVarint_loop_nonpos by lia.
    change (len (@nil byte)) with 0.
    change (2 ^ (7 * (1 + 0 - 1))) with 1. change (2 ^ (7 * (1 + 0))) with 128.
    lia.
  - destruct (IH (n / 128)) as (Hk & Hlow & Hhigh).
    + split; [lia | apply Z.div_lt; lia].
    + lia.
    + set (k := len (encodeVarint_loop (n / 128))) in *.
      replace (7 * (1 + k - 1)) with (7 * (k - 1) + 7) by lia.
      replace (7 * (1 + k)) with (7 * k + 7) by lia.
      rewrite !Z.pow_add_r by lia. change (2 ^ 7) with 128.
      split; [lia | split; nia].
Qed.

End VarintFacts.

(** C4.  Varint round trip: for every [uint64] value [n], decoding the
    encoding of [n] gives back [n] together with the number of bytes of the
    encoding.  Zero is encoded as the single byte [0x00]; a positive [n] is
    encoded in [k] bytes exactly when [2^(7(k-1)) <= n < 2^(7k)], so the
    encodings have between one and ten bytes. *)
Theorem varint_roundtrip (n : Z) :
  0 <= n < 2 ^ 64 ->
  Protobuf.decodeVarint (Protobuf.encodeVarint n)
    = (n, len (Protobuf.encodeVarint n))
  /\ (n = 0 -> Protobuf.encodeVarint n = [x00])
  /\ (0 < n ->
      2 ^ (7 * (len (Protobuf.encodeVarint n) - 1)) <= n
        < 2 ^ (7 * len (Protobuf.encodeVarint n)))
  /\ 1 <= len (Protobuf.encodeVarint n) <= 10.
Proof.
  intros Hn. unfold Protobuf.encodeVarint, Protobuf.decodeVarint.
  destruct (n =? 0) eqn:E.
  - apply Z.eqb_eq in E. subst n.
    repeat split; try reflexivity; try lia.
    all: intros; try lia; try (vm_compute; congruence).
  - apply Z.eqb_neq in E.
    pose proof (encodeVarint_loop_len n ltac:(lia)) as (Hk & Hlow & Hhigh).
    split; [| split; [| split]].
    + rewrite <- (app_nil_r (Protobuf.encodeVarint_loop n)) at 1.
      rewrite decode_encode_loop.
      * f_equal; lia.
      * lia.
      * lia.
      * change (2 ^ 0) with 1. lia.
      * lia.
    + intros; lia.
    + intros _. split; assumption.
    + split; [assumption |].
      assert (7 * (len (Protobuf.encodeVarint_loop n) - 1) < 64).
      { apply (Z.pow_lt_mono_r_iff 2); lia. }
      lia.
Qed.

(** The round trip at encodings of one, two, five and ten bytes. *)
Lemma varint_roundtrip_witness :
  (Protobuf.decodeVarint (Protobuf.encodeVarint 0) = (0, 1)
   /\ Protobuf.encodeVarint 0 = [x00])
  /\ Protobuf.decodeVarint (Protobuf.encodeVarint 127) = (127, 1)
  /\ Protobuf.decodeVarint (Protobuf.encodeVarint 300) = (300, 2)
  /\ Protobuf.decodeVarint (Protobuf.encodeVarint (2 ^ 28)) = (2 ^ 28, 5)
  /\ Protobuf.decodeVarint (Protobuf.encodeVarint (2 ^ 64 - 1)) = (2 ^ 64 - 1, 10).
Proof.
  split; [split |].
  - exact (proj1 (varint_roundtrip 0 ltac:(lia))).
  - exact (proj1 (proj2 (varint_roundtrip 0 ltac:(lia))) eq_refl).
  - split; [exact (proj1 (varint_roundtrip 127 ltac:(lia))) |].
    split; [exact (proj1 (varint_roundtrip 300 ltac:(lia))) |].
    split; [exact (proj1 (varint_roundtrip (2 ^ 28) ltac:(lia))) |].
    exact (proj1 (varint_roundtrip (2 ^ 64 - 1) ltac:(lia))).
Defined.

(** ** Fuel *)

Section FuelFacts.

(** A result of [findField]'s loop does not depend on the fuel it was
    obtained with. *)
Lemma findField_loop_more_fuel (fuel : nat) (data : list byte)
    (targetField pos : Z) (r : Protobuf.ProtobufError + list byte) :
  Protobuf.findField_loop fuel data targetField pos = Done r ->
  Protobuf.findField_loop (S fuel) data targetField pos = Done r.
Proof.
  revert pos. induction fuel as [|fuel IH]; intros pos Hr; [discriminate Hr |].
  cbn [Protobuf.findField_loop] in Hr |- *.
  destruct (pos <? len data); [| exact Hr].
  destruct (pos <? 0); [exact Hr |].
  destruct (Protobuf.findField_step data targetField pos) as [[res | pos'] | |];
    try exact Hr.
  apply IH in Hr. exact Hr.
Qed.

(** Nor does a result of [decodeNode]. *)
Lemma decodeNode_more_fuel (fuel : nat) (r : Node.Reader)
    (res : (Node.DecodeError + option Node.BinaryNode) * Node.Reader) :
  Node.decodeNode fuel r = Some res ->
  Node.decodeNode (S fuel) r = Some res.
Proof.
  revert r res. induction fuel as [|fuel IH]; intros r res Hr; [discriminate Hr |].
  remember (S fuel) as fuel' eqn:Ef.
  cbn [Node.decodeNode]. rewrite Ef in Hr. cbn [Node.decodeNode] in Hr.
  destruct (Node.ReadByte r) as [[e | descriptor] r1]; [exact Hr |].
  destruct (byte_to_Z descriptor =? 0); [exact Hr |].
  destruct (Node.decodeString r1) as [[e | tag] r2]; [exact Hr |].
  destruct (Node.decodeAttrs _ ∅ r2) as [[e | attrs] r3]; [exact Hr |].
  destruct (negb (Z.land (byte_to_Z descriptor) 1 =? 1)); [exact Hr |].
  match goal with
  | |- context [if ?c then _ else _] => destruct c; [| exact Hr]
  end.
  revert Hr.
  match goal with
  | |- ?e1 ?k0 ?c0 ?r0 = Some res -> ?e2 ?k0 ?c0 ?r0 = Some res =>
      assert (Hgen : forall k ch rr,
                 e1 k ch rr = Some res -> e2 k ch rr = Some res);
      [| apply Hgen]
  end.
  induction k as [|k IHk]; intros children rr Hr; [exact Hr |].
  destruct (Node.decodeNode fuel rr) as [[[e | child] r4] |] eqn:Ed;
    [| | discriminate Hr].
  - rewrite (IH _ _ Ed). exact Hr.
  - rewrite (IH _ _ Ed). apply IHk. exact Hr.
Qed.

End FuelFacts.

(** ** The client hello frame *)

(** A list of thirty-two elements, spelled out. *)
Lemma list_of_length_32 {A} (l : list A) :
  length l = 32%nat ->
  exists a0 a1 a2 a3 a4 a5 a6 a7 a8 a9 a10 a11 a12 a13 a14 a15
         a16 a17 a18 a19 a20 a21 a22 a23 a24 a25 a26 a27 a28 a29 a30 a31,
    l = [a0; a1; a2; a3; a4; a5; a6; a7; a8; a9; a10; a11; a12; a13; a14; a15;
         a16; a17; a18; a19; a20; a21; a22; a23; a24; a25; a26; a27; a28; a29;
         a30; a31].
Proof.
  intros Hl.
  do 32 (destruct l as [|? l]; [discriminate Hl |]).
  destruct l; [| discriminate Hl].
  repeat eexists.
Qed.

(** C7.  For a handler whose ephemeral public key has its 32 bytes,
    [GenerateClientHello] returns the four header bytes [WA 06 03], then the
    length of the payload as three big-endian bytes, then the payload; the
    payload is the length-delimited field 2 (tag [0x12]) whose content is the
    length-delimited field 1 (tag [0x0A]) holding the key, and the source's
    own [findField] recovers the key from it along that path. *)
Theorem client_hello_frame (n : Noise.NoiseHandler) :
  length (Noise.ephemeralPublic n) = 32%nat ->
  let key := Noise.ephemeralPublic n in
  let inner := [byte_of_Z 0x0A; byte_of_Z 32] ++ key in
  let payload := [byte_of_Z 0x12; byte_of_Z 34] ++ inner in
  Noise.GenerateClientHello n
    = bytes_of_string "WA" ++ [byte_of_Z 6; byte_of_Z 3]
        ++ [byte_of_Z 0; byte_of_Z 0; byte_of_Z (len payload)] ++ payload
  /\ len payload = 36
  /\ Protobuf.EncodeClientHello key = payload
  /\ Protobuf.pbEncodeBytes Protobuf.fieldEphemeral key = inner
  /\ Protobuf.findField payload Protobuf.fieldClientHello = Done (inr inner)
  /\ Protobuf.findField inner Protobuf.fieldEphemeral = Done (inr key).
Proof.
  intros Hlen. destruct n as [ePriv ePub sPriv sPub sEph h s ek dk rc wc fin fb lg].
  cbn [Noise.ephemeralPublic] in *.
  destruct (list_of_length_32 ePub Hlen) as
    (a0 & a1 & a2 & a3 & a4 & a5 & a6 & a7 & a8 & a9 & a10 & a11 & a12 & a13
     & a14 & a15 & a16 & a17 & a18 & a19 & a20 & a21 & a22 & a23 & a24 & a25
     & a26 & a27 & a28 & a29 & a30 & a31 & ->).
  cbv zeta. repeat split; vm_compute; reflexivity.
Qed.

(** The frame of a handler whose key is thirty-two bytes of value 7. *)
Lemma client_hello_frame_witness :
  let n := Noise.mkHandler [] (replicate 32 (byte_of_Z 7)) [] [] [] [] [] [] []
             0 0 false [] [] in
  map byte_to_Z (Noise.GenerateClientHello n)
    = [87; 65; 6; 3; 0; 0; 36; 18; 34; 10; 32] ++ replicate 32 7.
Proof.
  cbv zeta.
  rewrite (proj1 (client_hello_frame
                    (Noise.mkHandler [] (replicate 32 (byte_of_Z 7)) [] [] [] []
                                     [] [] [] 0 0 false [] [])
                    eq_refl)).
  vm_compute. reflexivity.
Defined.

(** ** Base64 *)

Section Base64Facts.
Import RFC4648.

Lemma bits_of_byte_eq (b : byte) :
  bits_of_byte b =
    [bit b 7; bit b 6; bit b 5; bit b 4; bit b 3; bit b 2; bit b 1; bit b 0].
Proof. reflexivity. Qed.

(** What the runs of bits the sextets are made of denote; each fact is
    checked on the 256 bytes. *)
Lemma value_hi6 (b : byte) :
  value_of_bits [bit b 7; bit b 6; bit b 5; bit b 4; bit b 3; bit b 2]
    = byte_to_Z b / 4.
Proof. destruct b; reflexivity. Qed.

Lemma value_lo2 (b : byte) :
  value_of_bits [bit b 1; bit b 0] = byte_to_Z b mod 4.
Proof. destruct b; reflexivity. Qed.

Lemma value_hi4 (b : byte) :
  value_of_bits [bit b 7; bit b 6; bit b 5; bit b 4] = byte_to_Z b / 16.
Proof. destruct b; reflexivity. Qed.

Lemma value_lo4 (b : byte) :
  value_of_bits [bit b 3; bit b 2; bit b 1; bit b 0] = byte_to_Z b mod 16.
Proof. destruct b; reflexivity. Qed.

Lemma value_hi2 (b : byte) :
  value_of_bits [bit b 7; bit b 6] = byte_to_Z b / 64.
Proof. destruct b; reflexivity. Qed.

Lemma value_lo6 (b : byte) :
  value_of_bits [bit b 5; bit b 4; bit b 3; bit b 2; bit b 1; bit b 0]
    = byte_to_Z b mod 64.
Proof. destruct b; reflexivity. Qed.

Lemma value_of_bits_acc (bits : list bool) (acc : Z) :
  fold_left (fun a (b : bool) => 2 * a + Z.b2z b) bits acc
    = acc * 2 ^ len bits + value_of_bits bits.
Proof.
  unfold value_of_bits. revert acc.
  induction bits as [|b bits IH]; intros acc.
  - change (len (@nil bool)) with 0. cbn [fold_left]. lia.
  - cbn [fold_left]. rewrite IH, (IH (2 * 0 + Z.b2z b)).
    rewrite len_cons, Z.pow_add_r by (pose proof (len_nonneg bits); lia).
    change (2 ^ 1) with 2. lia.
Qed.

Lemma value_of_bits_app (hi lo : list bool) :
  value_of_bits (hi ++ lo) = value_of_bits hi * 2 ^ len lo + value_of_bits lo.
Proof.
  unfold value_of_bits at 1. rewrite fold_left_app.
  fold (value_of_bits hi). apply value_of_bits_acc.
Qed.


Lemma letter_b64_at (bits : list bool) :
  letter bits = QR.b64_at (value_of_bits bits).
Proof. reflexivity. Qed.

Lemma padding_add4 (k : nat) : padding (S (S (S (S k)))) = padding k.
Proof.
  change (S (S (S (S k)))) with (4 + k)%nat.
  unfold padding. f_equal. f_equal. f_equal.
  replace (4 + k)%nat with (k + 1 * 4)%nat by lia.
  apply Nat.Div0.mod_add.
Qed.

(** The 24-bit word the source builds from three bytes, and what its shifts
    and masks select. *)
Lemma word24 (a b c : Z) :
  0 <= a < 256 -> 0 <= b < 256 -> 0 <= c < 256 ->
  Z.lor (Z.lor (wrap32 (Z.shiftl a 16)) (wrap32 (Z.shiftl b 8))) c
    = a * 65536 + b * 256 + c.
Proof.
  intros Ha Hb Hc.
  assert (Ea : wrap32 (Z.shiftl a 16) = Z.shiftl a 16).
  { unfold wrap32. apply Z.mod_small. rewrite Z.shiftl_mul_pow2 by lia. lia. }
  assert (Eb : wrap32 (Z.shiftl b 8) = b * 2 ^ 8).
  { unfold wrap32. rewrite Z.shiftl_mul_pow2 by lia. apply Z.mod_small. lia. }
  rewrite Ea, Eb, (Z.lor_comm (Z.shiftl a 16)).
  rewrite lor_shiftl_add by lia.
  rewrite Z.lor_comm.
  replace (b * 2 ^ 8 + a * 2 ^ 16) with (Z.shiftl (b + a * 2 ^ 8) 8)
    by (rewrite Z.shiftl_mul_pow2 by lia; lia).
  rewrite lor_shiftl_add by lia.
  lia.
Qed.

Lemma sextets_of_word (a b c : Z) :
  0 <= a < 256 -> 0 <= b < 256 -> 0 <= c < 256 ->
  let w := a * 65536 + b * 256 + c in
  Z.land (Z.shiftr w 18) 0x3F = a / 4
  /\ Z.land (Z.shiftr w 12) 0x3F = a mod 4 * 16 + b / 16
  /\ Z.land (Z.shiftr w 6) 0x3F = b mod 16 * 4 + c / 64
  /\ Z.land w 0x3F = c mod 64.
Proof.
  intros Ha Hb Hc w. subst w.
  rewrite !land_0x3F, !Z.shiftr_div_pow2 by lia.
  change (2 ^ 18) with 262144. change (2 ^ 12) with 4096.
  change (2 ^ 6) with 64.
  repeat split; Z.div_mod_to_equations; lia.
Qed.

Lemma base64_step3 (a b c : byte) (rest : list byte) :
  base64 (a :: b :: c :: rest) =
    String (QR.b64_at (byte_to_Z a / 4))
      (String (QR.b64_at (byte_to_Z a mod 4 * 16 + byte_to_Z b / 16))
         (String (QR.b64_at (byte_to_Z b mod 16 * 4 + byte_to_Z c / 64))
            (String (QR.b64_at (byte_to_Z c mod 64)) (base64 rest)))).
Proof.
  unfold base64, bit_stream. cbn [map concat].
  rewrite !bits_of_byte_eq. cbn [app sextets map length].
  rewrite padding_add4.
  cbn [app string_of_list_ascii].
  rewrite !letter_b64_at.
  rewrite value_hi6, value_lo6.
  change [bit a 1; bit a 0; bit b 7; bit b 6; bit b 5; bit b 4]
    with ([bit a 1; bit a 0] ++ [bit b 7; bit b 6; bit b 5; bit b 4]).
  change [bit b 3; bit b 2; bit b 1; bit b 0; bit c 7; bit c 6]
    with ([bit b 3; bit b 2; bit b 1; bit b 0] ++ [bit c 7; bit c 6]).
  rewrite !value_of_bits_app.
  rewrite value_lo2, value_hi4, value_lo4, value_hi2.
  reflexivity.
Qed.

Lemma base64_step2 (a b : byte) :
  base64 [a; b] =
    String (QR.b64_at (byte_to_Z a / 4))
      (String (QR.b64_at (byte_to_Z a mod 4 * 16 + byte_to_Z b / 16))
         (String (QR.b64_at (byte_to_Z b mod 16 * 4))
            (String QR.pad_char EmptyString))).
Proof.
  unfold base64, bit_stream. cbn [map concat].
  rewrite !bits_of_byte_eq.
  cbn [app sextets map length take replicate padding Nat.modulo Nat.divmod
       Nat.sub fst snd string_of_list_ascii].
  rewrite !letter_b64_at.
  rewrite value_hi6.
  change [bit a 1; bit a 0; bit b 7; bit b 6; bit b 5; bit b 4]
    with ([bit a 1; bit a 0] ++ [bit b 7; bit b 6; bit b 5; bit b 4]).
  change [bit b 3; bit b 2; bit b 1; bit b 0; false; false]
    with ([bit b 3; bit b 2; bit b 1; bit b 0] ++ [false; false]).
  rewrite !value_of_bits_app.
  rewrite value_lo2, value_hi4, value_lo4.
  change (value_of_bits [false; false]) with 0. rewrite Z.add_0_r.
  reflexivity.
Qed.

Lemma base64_step1 (a : byte) :
  base64 [a] =
    String (QR.b64_at (byte_to_Z a / 4))
      (String (QR.b64_at (byte_to_Z a mod 4 * 16))
         (String QR.pad_char (String QR.pad_char EmptyString))).
Proof.
  unfold base64, bit_stream. cbn [map concat].
  rewrite !bits_of_byte_eq.
  cbn [app sextets map length take replicate padding Nat.modulo Nat.divmod
       Nat.sub fst snd string_of_list_ascii].
  rewrite !letter_b64_at.
  rewrite value_hi6.
  change [bit a 1; bit a 0; false; false; false; false]
    with ([bit a 1; bit a 0] ++ [false; false; false; false]).
  rewrite !value_of_bits_app.
  rewrite value_lo2.
  change (value_of_bits [false; false; false; false]) with 0.
  rewrite Z.add_0_r.
  reflexivity.
Qed.

(** Induction over a list three elements at a time, as the encoder's loop
    walks it. *)
Lemma list_ind3 {A} (P : list A -> Prop) :
  P [] -> (forall a, P [a]) -> (forall a b, P [a; b]) ->
  (forall a b c l, P l -> P (a :: b :: c :: l)) ->
  forall l, P l.
Proof.
  intros H0 H1 H2 H3.
  assert (Hall : forall l, P l /\ (forall a, P (a :: l))
                           /\ (forall a b, P (a :: b :: l))).
  { induction l as [|x l (IH0 & IH1 & IH2)].
    - repeat split; auto.
    - repeat split; auto. }
  intros l. apply Hall.
Qed.

(** The source's encoder computes RFC 4648's base64. *)
Lemma encodeBase64_is_rfc4648 (data : list byte) :
  QR.encodeBase64 data = base64 data.
Proof.
  induction data as [|a|a b|a b c rest IH] using list_ind3.
  - reflexivity.
  - rewrite base64_step1. cbn [QR.encodeBase64]. cbv zeta.
    pose proof (byte_to_Z_range a) as Ha.
    assert (Hw : wrap32 (Z.shiftl (byte_to_Z a) 16)
                 = byte_to_Z a * 65536 + 0 * 256 + 0).
    { rewrite <- (word24 (byte_to_Z a) 0 0) by lia.
      change (wrap32 (Z.shiftl 0 8)) with 0. rewrite !Z.lor_0_r. reflexivity. }
    rewrite Hw.
    destruct (sextets_of_word (byte_to_Z a) 0 0) as (-> & -> & _ & _); try lia.
    change (0 / 16) with 0. rewrite Z.add_0_r. reflexivity.
  - rewrite base64_step2. cbn [QR.encodeBase64]. cbv zeta.
    pose proof (byte_to_Z_range a) as Ha.
    pose proof (byte_to_Z_range b) as Hb.
    assert (Hw : Z.lor (wrap32 (Z.shiftl (byte_to_Z a) 16))
                       (wrap32 (Z.shiftl (byte_to_Z b) 8))
                 = byte_to_Z a * 65536 + byte_to_Z b * 256 + 0).
    { rewrite <- (word24 (byte_to_Z a) (byte_to_Z b) 0) by lia.
      rewrite Z.lor_0_r. reflexivity. }
    rewrite Hw.
    destruct (sextets_of_word (byte_to_Z a) (byte_to_Z b) 0)
      as (-> & -> & -> & _); try lia.
    change (0 / 64) with 0. rewrite Z.add_0_r. reflexivity.
  - rewrite base64_step3, <- IH. cbn [QR.encodeBase64]. cbv zeta.
    pose proof (byte_to_Z_range a) as Ha.
    pose proof (byte_to_Z_range b) as Hb.
    pose proof (byte_to_Z_range c) as Hc.
    rewrite (word24 _ _ _ Ha Hb Hc).
    destruct (sextets_of_word _ _ _ Ha Hb Hc) as (-> & -> & -> & ->).
    reflexivity.
Qed.


(** No letter of the alphabet is the padding character. *)
Lemma b64_at_not_pad (i : Z) : QR.b64_at i <> QR.pad_char.
Proof.
  unfold QR.b64_at. generalize (Z.to_nat i). intros k.
  do 64 (destruct k as [|k]; [cbn; discriminate |]).
  destruct k; cbn; discriminate.
Qed.

Lemma encodeBase64_length (data : list byte) :
  Z.of_nat (String.length (QR.encodeBase64 data)) = 4 * ((len data + 2) / 3).
Proof.
  induction data as [|a|a b|a b c rest IH] using list_ind3.
  - reflexivity.
  - reflexivity.
  - reflexivity.
  - cbn [QR.encodeBase64]. cbv zeta. cbn [String.length].
    rewrite !len_cons. rewrite !Nat2Z.inj_succ, IH.
    replace (1 + (1 + (1 + len rest)) + 2) with (len rest + 2 + 1 * 3) by lia.
    rewrite Z.div_add by lia. lia.
Qed.

End Base64Facts.

Section QRFacts.
Local Open Scope string_scope.

(** C8.  For a 32-byte ephemeral public key, [generateQRData] is the text
    [2@], the reference, a comma, the base64 of the key, a comma and the
    session identifier.  The base64 text is the one RFC 4648 defines (the
    standard alphabet with [+] and [/]); it has 44 characters, of which the
    last is the padding character [=] and none of the 43 before it is. *)
Theorem qr_pairing_string (unixMilli : Z) (key : list byte) (sessionID : string) :
  length key = 32%nat ->
  QR.generateQRData unixMilli key sessionID
    = "2@" ++ QR.generateRef unixMilli ++ "," ++ RFC4648.base64 key
        ++ "," ++ sessionID
  /\ QR.encodeBase64 key = RFC4648.base64 key
  /\ String.length (QR.encodeBase64 key) = 44%nat
  /\ exists body,
       QR.encodeBase64 key = body ++ "="
       /\ String.length body = 43%nat
       /\ forall c, In c (list_ascii_of_string body) -> c <> "="%char.
Proof.
  intros Hlen. split; [| split; [| split]].
  - unfold QR.generateQRData. rewrite encodeBase64_is_rfc4648. reflexivity.
  - apply encodeBase64_is_rfc4648.
  - apply Nat2Z.inj. rewrite encodeBase64_length. unfold len. rewrite Hlen.
    reflexivity.
  - destruct (list_of_length_32 key Hlen) as
      (a0 & a1 & a2 & a3 & a4 & a5 & a6 & a7 & a8 & a9 & a10 & a11 & a12 & a13
       & a14 & a15 & a16 & a17 & a18 & a19 & a20 & a21 & a22 & a23 & a24 & a25
       & a26 & a27 & a28 & a29 & a30 & a31 & ->).
    cbn [QR.encodeBase64]. cbv zeta.
    eexists (String _ (String _ (String _ (String _ (String _ (String _
            (String _ (String _ (String _ (String _ (String _ (String _
            (String _ (String _ (String _ (String _ (String _ (String _
            (String _ (String _ (String _ (String _ (String _ (String _
            (String _ (String _ (String _ (String _ (String _ (String _
            (String _ (String _ (String _ (String _ (String _ (String _
            (String _ (String _ (String _ (String _ (String _ (String _
            (String _ EmptyString))))))))))))))))))))))))))))))))))))))))))).
    split; [cbn [String.append]; reflexivity |].
    split; [reflexivity |].
    intros ch Hin. cbn [list_ascii_of_string] in Hin.
    repeat (destruct Hin as [<- | Hin]; [apply b64_at_not_pad |]).
    destruct Hin.
Qed.

(** The pairing string of a sample key, clock reading and session. *)
Lemma qr_pairing_string_witness :
  QR.generateQRData 1700000000000
      (map (fun i => byte_of_Z (Z.of_nat i * 7 + 3)) (seq 0 32)) "s1"
    = "2@1700000000000,AwoRGB8mLTQ7QklQV15lbHN6gYiPlp2kq7K5wMfO1dw=,s1".
Proof.
  rewrite (proj1 (qr_pairing_string 1700000000000
                    (map (fun i => byte_of_Z (Z.of_nat i * 7 + 3)) (seq 0 32))
                    "s1" eq_refl)).
  vm_compute. reflexivity.
Defined.

End QRFacts.

(** ** The Noise handler: initial state *)

Section NoiseInit.
Context `{Crypto}.
Import Noise.

(** C3 (as amended).  Right after the assignments of [initializeState] the
    hash is the protocol name itself, 28 letters and four zero bytes, taken
    unhashed because it is exactly 32 bytes long; the salt and both keys
    equal the hash, both counters are zero and the handshake is not
    finished.  The two [authenticate] calls then replace the hash by
    [SHA256(SHA256(name ++ header) ++ ephemeralPublic)], the header being
    [WA 06 03], and leave the salt, the keys and the counters alone. *)
Theorem noise_initial_state (n : NoiseHandler) :
  let n1 := initializeState_fields n in
  let n2 := initializeState n in
  NoiseMode = bytes_of_string "Noise_XX_25519_AESGCM_SHA256"
                ++ [x00; x00; x00; x00]
  /\ len NoiseMode = 32
  /\ hash n1 = NoiseMode
  /\ salt n1 = hash n1 /\ encKey n1 = hash n1 /\ decKey n1 = hash n1
  /\ readCounter n1 = 0 /\ writeCounter n1 = 0 /\ isFinished n1 = false
  /\ NoiseHeader = bytes_of_string "WA" ++ [byte_of_Z 6; byte_of_Z 3]
  /\ hash n2 = sha256 (sha256 (NoiseMode ++ NoiseHeader) ++ ephemeralPublic n)
  /\ salt n2 = NoiseMode /\ encKey n2 = NoiseMode /\ decKey n2 = NoiseMode
  /\ readCounter n2 = 0 /\ writeCounter n2 = 0 /\ isFinished n2 = false.
Proof.
  cbv zeta. unfold initializeState, initializeState_fields, authenticate.
  change (len NoiseMode =? 32) with true. cbv iota.
  destruct n; cbn. repeat split; reflexivity.
Qed.

End NoiseInit.

(** C3, the claim as stated fails: with the real SHA-256, the hash the
    handler starts from is not the SHA-256 of the protocol name. *)
Lemma initial_hash_is_not_sha256 :
  Noise.hash (Noise.initializeState_fields (H := Standin.crypto) Standin.client)
    <> SHA256.sum256 Noise.NoiseMode.
Proof.
  vm_compute. intros E. discriminate E.
Qed.

(** ** The public [Decrypt] method *)

Section NoiseDecrypt.
Context `{Crypto}.
Import Noise.

(** C10.  [Decrypt] returns its input unchanged, and has no error to
    report, whenever the handshake is not finished and whenever the AEAD
    does not authenticate the input: a failure after the split is
    swallowed and the caller receives the ciphertext in place of a
    plaintext.  Before the end of the handshake the handler is left as it
    was; any error of [decrypt] has the same outcome. *)
Theorem public_decrypt_swallows_failure (n : NoiseHandler) (data : list byte) :
  isFinished n = false
  \/ (isFinished n = true
      /\ gcm_open (decKey n) (generateIV (readCounter n)) data (hash n) = None) ->
  fst (Decrypt data n) = data
  /\ (isFinished n = false -> snd (Decrypt data n) = n)
  /\ (forall e, fst (decrypt data n) = inl e -> fst (Decrypt data n) = data).
Proof.
  intros Hcase. unfold Decrypt.
  split; [| split].
  - destruct Hcase as [Hfin | [Hfin Hopen]]; rewrite Hfin; cbn [negb].
    + reflexivity.
    + unfold decrypt. rewrite Hfin.
      destruct (aes_NewCipher (decKey n)); cbn [negb]; [| reflexivity].
      cbn [set_counters decKey hash]. rewrite Hopen. reflexivity.
  - intros Hfin. rewrite Hfin. reflexivity.
  - intros e He. destruct (isFinished n); cbn [negb]; [| reflexivity].
    destruct (decrypt data n) as [[e' | pt] n']; cbn in He |- *;
      [reflexivity | discriminate He].
Qed.

End NoiseDecrypt.

(** The two cases at concrete handlers: before the end of the handshake,
    and after it on a transport message one bit of which was flipped. *)
Lemma public_decrypt_swallows_failure_witness :
  fst (Noise.Decrypt (H := Standin.crypto) Standin.flipped_message
         Standin.client) = Standin.flipped_message
  /\ Noise.isFinished Standin.transport_client = true
  /\ fst (Noise.decrypt (H := Standin.crypto) Standin.transport_message
            Standin.transport_client) = inr (bytes_of_string "hello")
  /\ fst (Noise.Decrypt (H := Standin.crypto) Standin.flipped_message
            Standin.transport_client) = Standin.flipped_message.
Proof.
  split; [| split; [| split]].
  - refine (proj1 (public_decrypt_swallows_failure
                     (H := Standin.crypto) _ _ _)).
    left. reflexivity.
  - reflexivity.
  - vm_compute. reflexivity.
  - refine (proj1 (public_decrypt_swallows_failure
                     (H := Standin.crypto) _ _ _)).
    right. split; [reflexivity | vm_compute; reflexivity].
Defined.

(** ** The handshake on a server static key that does not verify *)

Section NoiseServerHello.
Context `{Crypto}.
Import Noise.

(** [authenticate] assigns the hash and nothing else. *)
Lemma authenticate_frame (d : list byte) (n : NoiseHandler) :
  isFinished (authenticate d n) = isFinished n
  /\ ephemeralPrivate (authenticate d n) = ephemeralPrivate n
  /\ salt (authenticate d n) = salt n
  /\ encKey (authenticate d n) = encKey n
  /\ decKey (authenticate d n) = decKey n
  /\ readCounter (authenticate d n) = readCounter n
  /\ writeCounter (authenticate d n) = writeCounter n
  /\ aead_log (authenticate d n) = aead_log n.
Proof.
  unfold authenticate. destruct (isFinished n) eqn:E; cbn; rewrite ?E; tauto.
Qed.

(** [GenerateClientFinish] fails on a key of the wrong size or on an HKDF
    error only, and a successful call ends the handshake. *)
Lemma GenerateClientFinish_outcome (n : NoiseHandler) :
  match fst (GenerateClientFinish n) with
  | inl e => e = KeySizeError \/ e = ErrHkdfRead
  | inr _ => isFinished (snd (GenerateClientFinish n)) = true
  end.
Proof.
  unfold GenerateClientFinish, encrypt.
  destruct (aes_NewCipher (encKey n)); cbn [negb]; [| left; reflexivity].
  match goal with
  | |- context [finishInit ?m] => generalize m
  end.
  intros m. unfold finishInit.
  destruct (hkdf_read [] (salt m) 64); cbn; [reflexivity | right; reflexivity].
Qed.

(** C2 (as amended).  While the handshake is in progress, let the server
    hello decode, the first Diffie-Hellman step and key mixing succeed, and
    the AEAD reject the first 48 bytes of the server's static segment.
    Then [decrypt] reports the failure and keeps the segment out of the
    hash, but [ProcessServerHello] drops the error: it returns nil, with
    the keys of the first key mixing still in place, the write counter
    advanced by one and the second key mixing skipped.  No error of the
    handshake stands for an authentication failure, and
    [GenerateClientFinish] on the resulting handler can fail only on a key
    size or an HKDF error; when it succeeds the handshake is finished. *)
Theorem server_static_failure_is_dropped
    (data : list byte) (n : NoiseHandler)
    (decoded : Protobuf.ServerHelloData) (shared1 : list byte)
    (n1 : NoiseHandler) :
  let serverHello :=
    if negb (len (Protobuf.Ephemeral decoded) =? 32)
    then Protobuf.mkServerHello (take 32 data)
           (if len data >? 32 then drop 32 data else []) []
    else decoded in
  let segment := take 48 (Protobuf.Static serverHello) in
  isFinished n = false ->
  32 <= len data ->
  Protobuf.DecodeServerHello data = Done decoded ->
  dh (ephemeralPrivate n) (Protobuf.Ephemeral serverHello) = inr shared1 ->
  mixIntoKey shared1
    (authenticate (Protobuf.Ephemeral serverHello)
       (set_serverEphemeral (Protobuf.Ephemeral serverHello) n)) = (None, n1) ->
  48 <= len (Protobuf.Static serverHello) ->
  aes_NewCipher (decKey n1) = true ->
  gcm_open (decKey n1) (generateIV (writeCounter n1)) segment (hash n1) = None ->
  fst (decrypt segment n1) = inl ErrAuthFailed
  /\ ProcessServerHello data n = Done (None, snd (decrypt segment n1))
  /\ (let n2 := snd (decrypt segment n1) in
      hash n2 = hash n1 /\ salt n2 = salt n1
      /\ encKey n2 = encKey n1 /\ decKey n2 = decKey n1
      /\ writeCounter n2 = wrap32 (writeCounter n1 + 1)
      /\ isFinished n2 = false
      /\ match fst (GenerateClientFinish n2) with
         | inl e => e = KeySizeError \/ e = ErrHkdfRead
         | inr _ => isFinished (snd (GenerateClientFinish n2)) = true
         end).
Proof.
  intros serverHello segment Hfin Hlen Hdec Hdh Hmix Hstatic Haes Hopen.
  assert (Hfin1 : isFinished n1 = false).
  { unfold mixIntoKey in Hmix.
    destruct (hkdf_read shared1 _ 64); [| discriminate Hmix].
    injection Hmix as <-. cbn [set_keys isFinished].
    rewrite (proj1 (authenticate_frame _ _)). exact Hfin. }
  assert (Hd : decrypt segment n1 =
               (inl ErrAuthFailed,
                set_counters (readCounter n1) (wrap32 (writeCounter n1 + 1))
                  (aead_log n1
                     ++ [mkCall (decKey n1) (generateIV (writeCounter n1))])
                  n1)).
  { unfold decrypt. rewrite Haes, Hfin1. cbn [negb set_counters decKey hash].
    rewrite Hopen. reflexivity. }
  split; [rewrite Hd; reflexivity |].
  split.
  - unfold ProcessServerHello.
    replace (len data <? 32) with false by (symmetry; apply Z.ltb_ge; lia).
    rewrite Hdec. cbn [mbind run_bind].
    fold serverHello.
    assert (He : ephemeralPrivate
                   (authenticate (Protobuf.Ephemeral serverHello)
                      (set_serverEphemeral (Protobuf.Ephemeral serverHello) n))
                 = ephemeralPrivate n).
    { rewrite (proj1 (proj2 (authenticate_frame _ _))). reflexivity. }
    rewrite He, Hdh, Hmix.
    unfold process_static.
    replace (len (Protobuf.Static serverHello) >=? 48) with true
      by (symmetry; rewrite Z.geb_leb; apply Z.leb_le; lia).
    fold segment. rewrite Hd. reflexivity.
  - rewrite Hd. cbn [snd]. cbn [set_counters hash salt encKey decKey
                                 writeCounter isFinished].
    repeat split; try reflexivity; try assumption.
    apply GenerateClientFinish_outcome.
Qed.

End NoiseServerHello.

(** The amended statement at the stand-in's flipped server hello. *)
Lemma server_static_failure_is_dropped_witness :
  Noise.ProcessServerHello (H := Standin.crypto) Standin.hello_flipped
      Standin.client
    = Done (None,
            snd (Noise.decrypt (H := Standin.crypto) Standin.flipped_static
                   Standin.client_after_ephemeral)).
Proof.
  refine (proj1 (proj2
    (server_static_failure_is_dropped (H := Standin.crypto)
       Standin.hello_flipped Standin.client
       (Protobuf.mkServerHello Standin.server_ephemeral Standin.flipped_static [])
       (SHA256.sum256 (Noise.ephemeralPrivate Standin.client
                         ++ Standin.server_ephemeral))
       Standin.client_after_ephemeral
       _ _ _ _ _ _ _ _))).
  - reflexivity.
  - vm_compute. discriminate.
  - vm_compute. reflexivity.
  - vm_compute. reflexivity.
  - vm_compute. reflexivity.
  - vm_compute. discriminate.
  - reflexivity.
  - vm_compute. reflexivity.
Defined.

(** C2, the claim as stated fails: the tag of the flipped static segment
    does not verify, and yet [ProcessServerHello] returns no error and the
    handshake runs to its end. *)
Lemma flipped_static_handshake_completes :
  fst (Noise.decrypt (H := Standin.crypto) Standin.sealed_static
         Standin.client_after_ephemeral) = inr Standin.server_static
  /\ fst (Noise.decrypt (H := Standin.crypto) Standin.flipped_static
            Standin.client_after_ephemeral) = inl Noise.ErrAuthFailed
  /\ Noise.ProcessServerHello (H := Standin.crypto) Standin.hello_flipped
       Standin.client = Done (None, Standin.client_after_flipped)
  /\ (exists finish,
        fst (Noise.GenerateClientFinish (H := Standin.crypto)
               Standin.client_after_flipped) = inr finish)
  /\ Noise.isFinished
       (snd (Noise.GenerateClientFinish (H := Standin.crypto)
               Standin.client_after_flipped)) = true.
Proof.
  split; [vm_compute; reflexivity |].
  split; [vm_compute; reflexivity |].
  split; [vm_compute; reflexivity |].
  split; [eexists; vm_compute; reflexivity |].
  vm_compute. reflexivity.
Qed.

(** ** Nonces *)

Section NoiseNonces.
Context `{Crypto}.
Import Noise.

Lemma generateIV_eq (counter : Z) :
  generateIV counter = replicate 8 x00 ++ BE32 counter
  /\ length (generateIV counter) = 12%nat.
Proof. split; reflexivity. Qed.

(** Distinct counters give distinct nonces. *)
Lemma generateIV_inj (a b : Z) :
  0 <= a < 2 ^ 32 -> 0 <= b < 2 ^ 32 -> generateIV a = generateIV b -> a = b.
Proof.
  intros Ha Hb E. unfold generateIV in E. apply app_inv_head in E.
  unfold BE32 in E. injection E as E3 E2 E1 E0.
  apply (f_equal byte_to_Z) in E3, E2, E1, E0.
  rewrite !byte_to_of in E3, E2, E1, E0.
  rewrite !Z.shiftr_div_pow2 in E3, E2, E1 by lia.
  change (2 ^ 24) with 16777216 in *. change (2 ^ 16) with 65536 in *.
  change (2 ^ 8) with 256 in *. change (2 ^ 32) with 4294967296 in *.
  Z.div_mod_to_equations. lia.
Qed.

(** What one operation does to the keys, the counters and the log. *)
Lemma aead_step_spec (n : NoiseHandler) (op : AeadOp) :
  let n' := aead_step n op in
  encKey n' = encKey n /\ decKey n' = decKey n
  /\ isFinished n' = isFinished n
  /\ ((aead_log n' = aead_log n
       /\ readCounter n' = readCounter n /\ writeCounter n' = writeCounter n)
      \/ (exists key,
            aead_log n' = aead_log n ++ [mkCall key (generateIV (writeCounter n))]
            /\ writeCounter n' = wrap32 (writeCounter n + 1)
            /\ readCounter n' = readCounter n
            /\ (isFinished n = true -> key = encKey n))
      \/ (isFinished n = true
          /\ aead_log n' = aead_log n
                             ++ [mkCall (decKey n) (generateIV (readCounter n))]
          /\ readCounter n' = wrap32 (readCounter n + 1)
          /\ writeCounter n' = writeCounter n)).
Proof.
  destruct op as [p | c]; cbn [aead_step]; cbv zeta.
  - unfold encrypt.
    destruct (aes_NewCipher (encKey n)); cbn [negb snd].
    + destruct (authenticate_frame
                  (gcm_seal (encKey n) (generateIV (writeCounter n)) p (hash n))
                  (set_counters (readCounter n) (wrap32 (writeCounter n + 1))
                     (aead_log n ++ [mkCall (encKey n) (generateIV (writeCounter n))])
                     n))
        as (-> & _ & _ & -> & -> & -> & -> & ->).
      cbn [set_counters encKey decKey isFinished].
      repeat split. right. left. exists (encKey n). repeat split.
    + repeat split. left. repeat split.
  - unfold decrypt.
    destruct (aes_NewCipher (decKey n)); cbn [negb snd];
      [| repeat split; left; repeat split].
    destruct (isFinished n) eqn:Hfin.
    + cbn [set_counters decKey hash].
      destruct (gcm_open (decKey n) (generateIV (readCounter n)) c (hash n));
        cbn [snd].
      * match goal with
        | |- context [authenticate ?d ?m] =>
            destruct (authenticate_frame d m)
              as (-> & _ & _ & -> & -> & -> & -> & ->)
        end.
        cbn [set_counters encKey decKey isFinished].
        repeat split; try assumption. right. right. repeat split.
      * cbn [set_counters encKey decKey isFinished].
        repeat split; try assumption. right. right. repeat split.
    + cbn [set_counters decKey hash].
      destruct (gcm_open (decKey n) (generateIV (writeCounter n)) c (hash n));
        cbn [snd].
      * match goal with
        | |- context [authenticate ?d ?m] =>
            destruct (authenticate_frame d m)
              as (-> & _ & _ & -> & -> & -> & -> & ->)
        end.
        cbn [set_counters encKey decKey isFinished].
        repeat split; try assumption. right. left. exists (decKey n).
        repeat split. intros; discriminate.
      * cbn [set_counters encKey decKey isFinished].
        repeat split; try assumption. right. left. exists (decKey n).
        repeat split. intros; discriminate.
Qed.


Lemma aead_step_log (n : NoiseHandler) (op : AeadOp) :
  aead_log (aead_step n op)
    = aead_log n ++ drop (length (aead_log n)) (aead_log (aead_step n op)).
Proof.
  destruct (aead_step_spec n op)
    as (_ & _ & _ & [(-> & _) | [(key & -> & _) | (_ & -> & _)]]).
  - rewrite drop_all, app_nil_r. reflexivity.
  - rewrite drop_app_length. reflexivity.
  - rewrite drop_app_length. reflexivity.
Qed.

(** The log only grows, and [calls_of] is what a run appends to it. *)
Lemma aead_run_log (ops : list AeadOp) (n : NoiseHandler) :
  aead_log (aead_run ops n) = aead_log n ++ trace ops n.
Proof.
  revert n. induction ops as [|op ops IH]; intros n; cbn [aead_run fold_left trace].
  - rewrite app_nil_r. reflexivity.
  - fold (aead_run ops (aead_step n op)). rewrite IH.
    rewrite (aead_step_log n op) at 1. rewrite <- app_assoc. reflexivity.
Qed.

Lemma calls_of_trace (ops : list AeadOp) (n : NoiseHandler) :
  calls_of ops n = trace ops n.
Proof.
  unfold calls_of. rewrite aead_run_log, drop_app_length. reflexivity.
Qed.

Lemma trace_from_state (ops : list AeadOp) (n : NoiseHandler) :
  0 <= readCounter n < 2 ^ 32 -> 0 <= writeCounter n < 2 ^ 32 ->
  Forall (from_state n (len ops)) (trace ops n).
Proof.
  revert n. induction ops as [|op ops IH]; intros n Hr Hw; cbn [trace].
  - constructor.
  - pose proof (len_nonneg ops) as Hk. rewrite len_cons.
    destruct (aead_step_spec n op) as (Hek & Hdk & Hfin & Hcase).
    set (n' := aead_step n op) in *.
    assert (Hm : forall x, 0 <= x mod 2 ^ 32 < 2 ^ 32)
      by (intros x; apply Z.mod_pos_bound; lia).
    apply Forall_app. split.
    + destruct Hcase as [(-> & _) | [(key & -> & _ & _ & Hkey)
                                    | (Hf & -> & _)]].
      * rewrite drop_all. constructor.
      * rewrite drop_app_length. constructor; [| constructor].
        left. exists 0. cbn [call_nonce call_key].
        rewrite Z.add_0_r, Z.mod_small by lia. repeat split; [lia | lia | exact Hkey].
      * rewrite drop_app_length. constructor; [| constructor].
        right. split; [exact Hf |]. exists 0. cbn [call_nonce call_key].
        rewrite Z.add_0_r, Z.mod_small by lia. repeat split; lia.
    + assert (Hrange : 0 <= readCounter n' < 2 ^ 32
                       /\ 0 <= writeCounter n' < 2 ^ 32
                       /\ ((writeCounter n' = writeCounter n
                            \/ writeCounter n' = (writeCounter n + 1) mod 2 ^ 32)
                           /\ (readCounter n' = readCounter n
                               \/ readCounter n' = (readCounter n + 1) mod 2 ^ 32))).
      { unfold wrap32 in Hcase.
        destruct Hcase as [(_ & -> & ->) | [(key & _ & -> & -> & _)
                                           | (_ & _ & -> & ->)]];
          repeat split; auto; try lia; apply Hm. }
      destruct Hrange as (Hr' & Hw' & Hwstep & Hrstep).
      specialize (IH n' Hr' Hw').
      eapply Forall_impl; [exact IH |].
      intros c [(j & Hj & Hn & Hkey) | (Hf & j & Hj & Hn & Hkey)].
      * left. destruct Hwstep as [E | E]; rewrite E in Hn.
        -- exists j. repeat split; [lia | lia | exact Hn |].
           intros Hf. rewrite <- Hek. apply Hkey. rewrite Hfin. exact Hf.
        -- exists (j + 1). repeat split; [lia | lia | |].
           ++ rewrite Hn. f_equal. rewrite Zplus_mod_idemp_l. f_equal. lia.
           ++ intros Hf. rewrite <- Hek. apply Hkey. rewrite Hfin. exact Hf.
      * right. split; [rewrite <- Hfin; exact Hf |].
        destruct Hrstep as [E | E]; rewrite E in Hn.
        -- exists j. repeat split; [lia | lia | exact Hn |].
           rewrite <- Hdk. exact Hkey.
        -- exists (j + 1). repeat split; [lia | lia | |].
           ++ rewrite Hn. f_equal. rewrite Zplus_mod_idemp_l. f_equal. lia.
           ++ rewrite <- Hdk. exact Hkey.
Qed.

(** A counter that moved on by less than [2^32] steps is a different one. *)
Lemma counter_moved (w j : Z) :
  0 <= w < 2 ^ 32 -> 0 < j < 2 ^ 32 -> (w + j) mod 2 ^ 32 <> w.
Proof.
  intros Hw Hj E. change (2 ^ 32) with 4294967296 in *.
  Z.div_mod_to_equations. lia.
Qed.

Lemma trace_NoDup (ops : list AeadOp) (n : NoiseHandler) :
  0 <= readCounter n < 2 ^ 32 -> 0 <= writeCounter n < 2 ^ 32 ->
  len ops <= 2 ^ 32 ->
  (isFinished n = true -> encKey n <> decKey n) ->
  NoDup (trace ops n).
Proof.
  revert n. induction ops as [|op ops IH]; intros n Hr Hw Hlen Hkeys; cbn [trace].
  - constructor.
  - pose proof (len_nonneg ops) as Hk. rewrite len_cons in Hlen.
    destruct (aead_step_spec n op) as (Hek & Hdk & Hfin & Hcase).
    set (n' := aead_step n op) in *.
    assert (Hm : forall x, 0 <= x mod 2 ^ 32 < 2 ^ 32)
      by (intros x; apply Z.mod_pos_bound; lia).
    assert (Hr' : 0 <= readCounter n' < 2 ^ 32).
    { unfold wrap32 in Hcase.
      destruct Hcase as [(_ & -> & _) | [(key & _ & _ & -> & _)
                                        | (_ & _ & -> & _)]]; auto. }
    assert (Hw' : 0 <= writeCounter n' < 2 ^ 32).
    { unfold wrap32 in Hcase.
      destruct Hcase as [(_ & _ & ->) | [(key & _ & -> & _ & _)
                                        | (_ & _ & _ & ->)]]; auto. }
    assert (Htail : NoDup (trace ops n')).
    { apply IH; [assumption | assumption | lia |].
      rewrite Hfin, Hek, Hdk. exact Hkeys. }
    pose proof (trace_from_state ops n' Hr' Hw') as Hfrom.
    rewrite Forall_forall in Hfrom.
    destruct Hcase as [(-> & _) | [(key & -> & Ew & Er & Hkey)
                                  | (Hf & -> & Er & Ew)]].
    + rewrite drop_all. exact Htail.
    + rewrite drop_app_length. cbn [app]. constructor; [| exact Htail].
      intros Hin. apply Hfrom in Hin.
      destruct Hin as [(j & Hj & Hn & _) | (Hf & j & Hj & Hn & Hk')];
        cbn [call_nonce call_key] in *.
      * apply generateIV_inj in Hn; [| lia | apply Hm].
        rewrite Ew in Hn. unfold wrap32 in Hn.
        rewrite Zplus_mod_idemp_l in Hn.
        apply (counter_moved (writeCounter n) (1 + j)); [lia | lia |].
        rewrite Hn. f_equal. lia.
      * rewrite Hfin in Hf. apply (Hkeys Hf).
        rewrite <- (Hkey Hf), Hk', Hdk. reflexivity.
    + rewrite drop_app_length. cbn [app]. constructor; [| exact Htail].
      intros Hin. apply Hfrom in Hin.
      destruct Hin as [(j & Hj & Hn & Hk') | (_ & j & Hj & Hn & _)];
        cbn [call_nonce call_key] in *.
      * apply (Hkeys Hf). rewrite <- Hek, <- Hk'; [reflexivity |].
        rewrite Hfin. exact Hf.
      * apply generateIV_inj in Hn; [| lia | apply Hm].
        rewrite Er in Hn. unfold wrap32 in Hn.
        rewrite Zplus_mod_idemp_l in Hn.
        apply (counter_moved (readCounter n) (1 + j)); [lia | lia |].
        rewrite Hn. f_equal. lia.
Qed.


(** C6 (as amended).  From any handler whose counters hold [uint32]
    values, over a sequence of at most [2^32] calls of [encrypt] and
    [decrypt] with no key change in between: the log grows by the calls
    made; every call's nonce is eight zero bytes followed by the four
    big-endian bytes of a counter value; an [encrypt] call uses the sending
    key with the write counter and leaves that counter one higher modulo
    [2^32]; and no two calls share both key and nonce, as long as the two
    transport keys differ once the handshake is finished. *)
Theorem nonces_unique_below_wrap (n : NoiseHandler) (ops : list AeadOp) :
  0 <= readCounter n < 2 ^ 32 -> 0 <= writeCounter n < 2 ^ 32 ->
  len ops <= 2 ^ 32 ->
  (isFinished n = true -> encKey n <> decKey n) ->
  aead_log (aead_run ops n) = aead_log n ++ calls_of ops n
  /\ (forall c, c ∈ calls_of ops n ->
        exists counter, 0 <= counter < 2 ^ 32
          /\ call_nonce c = replicate 8 x00 ++ BE32 counter
          /\ length (call_nonce c) = 12%nat)
  /\ (forall plaintext, aes_NewCipher (encKey n) = true ->
        calls_of [DoEncrypt plaintext] n
          = [mkCall (encKey n) (generateIV (writeCounter n))]
        /\ writeCounter (snd (encrypt plaintext n))
           = (writeCounter n + 1) mod 2 ^ 32)
  /\ NoDup (calls_of ops n).
Proof.
  intros Hr Hw Hlen Hkeys.
  split; [| split; [| split]].
  - rewrite calls_of_trace. apply aead_run_log.
  - intros c Hin. rewrite calls_of_trace in Hin.
    pose proof (trace_from_state ops n Hr Hw) as Hfrom.
    rewrite Forall_forall in Hfrom. apply Hfrom in Hin.
    assert (Hm : forall x, 0 <= x mod 2 ^ 32 < 2 ^ 32)
      by (intros x; apply Z.mod_pos_bound; lia).
    destruct Hin as [(j & _ & -> & _) | (_ & j & _ & -> & _)];
      eexists; (split; [apply Hm | apply generateIV_eq]).
  - intros plaintext Haes. rewrite calls_of_trace. cbn [trace aead_step].
    unfold encrypt. rewrite Haes. cbn [negb snd].
    match goal with
    | |- context [authenticate ?d ?m] =>
        destruct (authenticate_frame d m) as (_ & _ & _ & _ & _ & _ & -> & ->)
    end.
    cbn [set_counters aead_log writeCounter].
    rewrite drop_app_length. split; reflexivity.
  - rewrite calls_of_trace. apply trace_NoDup; assumption.
Qed.

(** [encrypt] with a key of a valid size. *)
Lemma encrypt_ok (plaintext : list byte) (n : NoiseHandler) :
  aes_NewCipher (encKey n) = true ->
  let n' := snd (encrypt plaintext n) in
  aead_log n' = aead_log n ++ [mkCall (encKey n) (generateIV (writeCounter n))]
  /\ writeCounter n' = wrap32 (writeCounter n + 1)
  /\ encKey n' = encKey n.
Proof.
  intros Haes. cbv zeta. unfold encrypt. rewrite Haes. cbn [negb snd].
  match goal with
  | |- context [authenticate ?d ?m] =>
      destruct (authenticate_frame d m) as (_ & _ & _ & -> & _ & _ & -> & ->)
  end.
  cbn [set_counters aead_log writeCounter encKey]. repeat split.
Qed.

(** The calls of [k] successive [encrypt] calls: the same key every time,
    the counter running on modulo [2^32]. *)
Lemma trace_encrypts (k : nat) (plaintext : list byte) (n : NoiseHandler) :
  aes_NewCipher (encKey n) = true -> 0 <= writeCounter n < 2 ^ 32 ->
  trace (replicate k (DoEncrypt plaintext)) n =
    map (fun j : nat =>
           mkCall (encKey n)
                  (generateIV ((writeCounter n + Z.of_nat j) mod 2 ^ 32)))
        (seq 0 k).
Proof.
  revert n. induction k as [|k IH]; intros n Haes Hw.
  - reflexivity.
  - cbn [replicate trace aead_step].
    destruct (encrypt_ok plaintext n Haes) as (Hlog & Hwc & Hkey).
    rewrite Hlog, drop_app_length.
    rewrite IH.
    + rewrite Hkey, Hwc. cbn [seq map app]. f_equal.
      * rewrite Z.add_0_r, Z.mod_small by lia. reflexivity.
      * rewrite <- seq_shift, map_map. apply map_ext. intros j.
        unfold wrap32. rewrite Zplus_mod_idemp_l. do 3 f_equal. lia.
    + rewrite Hkey. exact Haes.
    + rewrite Hwc. unfold wrap32. apply Z.mod_pos_bound. lia.
Qed.

(** After [2^32] calls of [encrypt] the next one repeats the first call's
    key and nonce. *)
Lemma encrypts_wrap (plaintext : list byte) (n : NoiseHandler) :
  aes_NewCipher (encKey n) = true -> 0 <= writeCounter n < 2 ^ 32 ->
  ~ NoDup (calls_of (replicate (Z.to_nat (2 ^ 32 + 1)) (DoEncrypt plaintext)) n).
Proof.
  intros Haes Hw Hnd. rewrite calls_of_trace in Hnd.
  rewrite (trace_encrypts _ plaintext n Haes Hw) in Hnd.
  remember (Z.to_nat (2 ^ 32 + 1)) as K eqn:HK.
  assert (HK' : Z.of_nat K = 2 ^ 32 + 1) by (subst K; lia).
  clear HK.
  set (f := fun j : nat =>
              mkCall (encKey n)
                     (generateIV ((writeCounter n + Z.of_nat j) mod 2 ^ 32)))
    in Hnd.
  assert (H0 : map f (seq 0 K) !! 0%nat = Some (f 0%nat)).
  { rewrite list_lookup_fmap, lookup_seq_lt by lia. reflexivity. }
  assert (H1 : map f (seq 0 K) !! (K - 1)%nat = Some (f 0%nat)).
  { rewrite list_lookup_fmap, lookup_seq_lt by lia. cbn [fmap option_fmap option_map].
    f_equal. unfold f. do 2 f_equal.
    replace (writeCounter n + Z.of_nat (0 + (K - 1)))
      with (writeCounter n + Z.of_nat 0 + 1 * 2 ^ 32) by lia.
    apply Z_mod_plus_full. }
  pose proof (NoDup_lookup _ _ _ _ Hnd H0 H1). lia.
Qed.

End NoiseNonces.

(** The amended statement on a transport-mode handler: two messages sent
    and two received, one of them rejected. *)
Lemma nonces_unique_below_wrap_witness :
  NoDup (Noise.calls_of (H := Standin.crypto)
           [Noise.DoEncrypt (bytes_of_string "a");
            Noise.DoDecrypt Standin.transport_message;
            Noise.DoEncrypt (bytes_of_string "b");
            Noise.DoDecrypt Standin.flipped_message]
           Standin.transport_client).
Proof.
  refine (proj2 (proj2 (proj2
    (nonces_unique_below_wrap (H := Standin.crypto) Standin.transport_client
       _ _ _ _ _)))).
  - unfold Standin.transport_client. cbn [Noise.readCounter]. lia.
  - unfold Standin.transport_client. cbn [Noise.writeCounter]. lia.
  - unfold len. cbn [length]. lia.
  - intros _. vm_compute. intros E. discriminate E.
Defined.

(** C6, the claim as stated fails: the write counter is a [uint32] that
    wraps, so the call that follows [2^32] calls of [encrypt] under one
    transport key uses the key and the nonce of the first. *)
Lemma nonce_reused_after_wrap :
  ~ NoDup (Noise.calls_of (H := Standin.crypto)
             (replicate (Z.to_nat (2 ^ 32 + 1)) (Noise.DoEncrypt []))
             Standin.transport_client).
Proof.
  apply (encrypts_wrap (H := Standin.crypto)).
  - reflexivity.
  - unfold Standin.transport_client. cbn [Noise.writeCounter]. lia.
Qed.

(** ** The session manager *)

Section SessionFacts.
Import Client.

Lemma ids_match_new (envSessionDir : string) :
  ids_match (NewSessionManager envSessionDir).
Proof. intros id c Hc. cbn in Hc. rewrite lookup_empty in Hc. discriminate. Qed.

Lemma ids_match_step (sm : SessionManager) (op : Op) :
  ids_match sm -> ids_match (step sm op).
Proof.
  intros Hsm id c. destruct op as [sid | sid |]; cbn [step].
  - unfold CreateSession. destruct (sessions sm !! sid) eqn:E; cbn [snd sessions].
    + apply Hsm.
    + destruct (decide (sid = id)) as [-> | Hne].
      * rewrite lookup_insert_eq. intros [= <-]. reflexivity.
      * rewrite lookup_insert_ne by assumption. apply Hsm.
  - unfold DeleteSession. destruct (sessions sm !! sid) eqn:E; cbn [snd sessions].
    + destruct (decide (sid = id)) as [-> | Hne].
      * rewrite lookup_delete_eq. discriminate.
      * rewrite lookup_delete_ne by assumption. apply Hsm.
    + apply Hsm.
  - unfold DisconnectAll. cbn [sessions]. rewrite lookup_fmap.
    destruct (sessions sm !! id) as [c0|] eqn:E; cbn; [| discriminate].
    intros [= <-]. cbn [Disconnect ID]. apply (Hsm _ _ E).
Qed.

Lemma ids_match_run (ops : list Op) (sm : SessionManager) :
  ids_match sm -> ids_match (run_ops ops sm).
Proof.
  revert sm. induction ops as [|op ops IH]; intros sm Hsm; cbn.
  - exact Hsm.
  - apply IH, ids_match_step, Hsm.
Qed.

(** C9.  After any sequence of calls on a new session manager: every
    client in the map is stored under its own identifier, so two entries
    never hold clients with one identifier; [CreateSession] on an
    identifier that is present returns [ErrSessionExists] and changes
    nothing, and on an absent one it stores a new client under that
    identifier; [DeleteSession] on an absent identifier returns
    [ErrSessionNotFound] and changes nothing, and on a present one it
    removes that entry only. *)
Theorem session_map_is_a_function (envSessionDir : string) (ops : list Op) :
  let sm := run_ops ops (NewSessionManager envSessionDir) in
  (forall id c, sessions sm !! id = Some c -> ID c = id)
  /\ (forall id1 id2 c1 c2,
        sessions sm !! id1 = Some c1 -> sessions sm !! id2 = Some c2 ->
        ID c1 = ID c2 -> id1 = id2 /\ c1 = c2)
  /\ (forall id, is_Some (sessions sm !! id) ->
        CreateSession id sm = (inl ErrSessionExists, sm))
  /\ (forall id, sessions sm !! id = None ->
        DeleteSession id sm = (Some ErrSessionNotFound, sm))
  /\ (forall id, sessions sm !! id = None ->
        exists c, fst (CreateSession id sm) = inr c /\ ID c = id
          /\ sessions (snd (CreateSession id sm)) = <[id := c]> (sessions sm))
  /\ (forall id, is_Some (sessions sm !! id) ->
        fst (DeleteSession id sm) = None
        /\ sessions (snd (DeleteSession id sm)) = delete id (sessions sm)).
Proof.
  intros sm.
  assert (Hsm : ids_match sm) by apply ids_match_run, ids_match_new.
  split; [exact Hsm |].
  split.
  { intros id1 id2 c1 c2 H1 H2 E.
    assert (id1 = id2)
      by (rewrite <- (Hsm _ _ H1), <- (Hsm _ _ H2); exact E).
    subst id2. split; [reflexivity | congruence]. }
  split.
  { intros id [c Hc]. unfold CreateSession. rewrite Hc. reflexivity. }
  split.
  { intros id Hc. unfold DeleteSession. rewrite Hc. reflexivity. }
  split.
  { intros id Hc. unfold CreateSession. rewrite Hc. cbn [fst snd sessions].
    eexists. split; [reflexivity |]. split; reflexivity. }
  intros id [c Hc]. unfold DeleteSession. rewrite Hc. cbn [fst snd sessions].
  split; reflexivity.
Qed.

End SessionFacts.

(** ** The binary-node codec *)

Section NodeFacts.
Import Node.
Local Open Scope string_scope.

(** The dictionary search finds every entry that is not empty. *)
Lemma dict_index_found (dict : list string) (i0 : Z) (s : string) :
  In s dict -> s <> "" ->
  exists i, dict_index dict i0 s = Some i
    /\ (i0 <= i < i0 + len dict)%Z
    /\ nth (Z.to_nat (i - i0)) dict "" = s.
Proof.
  intros Hin Hs. revert i0.
  induction dict as [|d dict IH]; intros i0; [destruct Hin |].
  cbn [dict_index]. rewrite len_cons. pose proof (len_nonneg dict).
  destruct (String.eqb d s) eqn:E.
  - apply String.eqb_eq in E. subst d.
    replace (String.eqb s "") with false
      by (symmetry; apply String.eqb_neq; exact Hs).
    cbn [negb andb]. exists i0. split; [reflexivity |].
    split; [lia |]. replace (i0 - i0)%Z with 0%Z by lia. reflexivity.
  - cbn [andb]. destruct Hin as [-> | Hin].
    + rewrite String.eqb_refl in E. discriminate E.
    + destruct (IH Hin (i0 + 1)%Z) as (i & Hi & Hr & Hn).
      exists i. split; [exact Hi |]. split; [lia |].
      replace (Z.to_nat (i - i0)) with (S (Z.to_nat (i - (i0 + 1)))) by lia.
      exact Hn.
Qed.

Lemma length_bytes_of_string (s : string) :
  length (bytes_of_string s) = String.length s.
Proof.
  unfold bytes_of_string, list_byte_of_string.
  rewrite length_map. induction s as [|c s IH]; cbn; [reflexivity | f_equal; exact IH].
Qed.

(** The first 48 slots of the dictionary are empty. *)
Lemma dict_at_low (b : Z) : (0 <= b < 48)%Z -> dict_at b = "".
Proof.
  intros Hb. unfold dict_at.
  assert (Hn : (Z.to_nat b < 48)%nat) by lia.
  revert Hn. generalize (Z.to_nat b). intros k Hk.
  do 48 (destruct k as [|k]; [reflexivity |]). lia.
Qed.

(** What does survive: a string outside the dictionary that is shorter
    than 48 bytes is read back as it was written. *)
Lemma short_string_roundtrip (s : string) (rest : list byte) :
  dict_index tagDictionary 0 s = None -> (strlen s < 48)%Z ->
  decodeString (mkReader (encodeString s ++ rest) 0)
    = (inr s, mkReader (encodeString s ++ rest) (S (String.length s))).
Proof.
  intros Hd Hs. unfold encodeString. rewrite Hd.
  assert (H0 : (0 <= strlen s)%Z) by (unfold strlen; lia).
  replace (strlen s <? 128)%Z with true by (symmetry; apply Z.ltb_lt; lia).
  unfold decodeString, ReadByte. cbn [r_data r_pos app lookup list_lookup].
  rewrite byte_to_of_small by lia.
  rewrite (dict_at_low (strlen s)) by lia. rewrite andb_false_r.
  replace (strlen s =? 0xFD)%Z with false by (symmetry; apply Z.eqb_neq; lia).
  unfold ReadBuf. cbn [r_data r_pos drop].
  assert (Hl : Z.to_nat (strlen s) = length (bytes_of_string s)).
  { rewrite length_bytes_of_string. unfold strlen. lia. }
  rewrite Hl. change (drop 0 (bytes_of_string s ++ rest)%list)
    with (bytes_of_string s ++ rest)%list.
  rewrite take_app_length, Nat.sub_diag. cbn [replicate].
  rewrite app_nil_r. unfold string_of_bytes, bytes_of_string at 1.
  rewrite string_of_list_byte_of_string, length_bytes_of_string.
  reflexivity.
Qed.

(** C5, what the code does.  A dictionary entry that is not empty is
    written as one byte, the low eight bits of its index.  The claim fails
    on both sides of it: the dictionary has 329 entries, so the entry
    [serial] at index 256 is written as the byte 0 and read back as the
    empty string; and a string outside the dictionary is written with its
    length first, which the decoder takes for a dictionary index whenever
    that slot is filled: a string of 48 letters is read back as [1], one of
    128 letters (length marker [0xFD]) as [selected]. *)
Theorem dictionary_bytes_collide :
  len tagDictionary = 329%Z
  /\ (forall s, In s tagDictionary -> s <> "" ->
        exists i, (0 <= i < 329)%Z
          /\ nth (Z.to_nat i) tagDictionary "" = s
          /\ dict_index tagDictionary 0 s = Some i
          /\ encodeString s = [byte_of_Z i])
  /\ (dict_index tagDictionary 0 "serial" = Some 256%Z
      /\ encodeString "serial" = [x00]
      /\ fst (decodeString (mkReader (encodeString "serial") 0)) = inr "")
  /\ (let s := string_of_bytes (replicate 48 (byte_of_Z 97)) in
      dict_index tagDictionary 0 s = None
      /\ encodeString s = byte_of_Z 48 :: replicate 48 (byte_of_Z 97)
      /\ fst (decodeString (mkReader (encodeString s) 0)) = inr "1")
  /\ (let s := string_of_bytes (replicate 128 (byte_of_Z 97)) in
      dict_index tagDictionary 0 s = None
      /\ fst (decodeString (mkReader (encodeString s) 0)) = inr "selected").
Proof.
  split; [reflexivity |].
  split.
  { intros s Hin Hs.
    destruct (dict_index_found tagDictionary 0 s Hin Hs) as (i & Hi & Hr & Hn).
    exists i. change (len tagDictionary) with 329%Z in Hr.
    replace (i - 0)%Z with i in Hn by lia.
    split; [lia |]. split; [exact Hn |]. split; [exact Hi |].
    unfold encodeString. rewrite Hi. reflexivity. }
  split; [repeat split; vm_compute; reflexivity |].
  split; [cbv zeta; repeat split; vm_compute; reflexivity |].
  cbv zeta; repeat split; vm_compute; reflexivity.
Qed.

(** C1, what the code does.  A node with no attribute and no content is
    written with the descriptor byte 0, which the decoder reads as a nil
    node: whatever the tag and the order of iteration, decoding the
    encoding returns nil and no error.  The node [buildResumeNode] makes
    (tag [iq], attributes [type = set] and [to = s.whatsapp.net], no
    content) is decoded to an end-of-input error in either order of its
    attributes, and so is a node whose content is a string. *)
Theorem node_roundtrip_fails :
  (forall rangeAttrs tag,
     DecodeBinaryNode
       (EncodeBinaryNode rangeAttrs (Some (mkNode tag ∅ ContentNil)))
     = Some (inr None))
  /\ (let attrs : gmap string string :=
        <["type" := "set"]> (<["to" := "s.whatsapp.net"]> ∅) in
      let node := mkNode "iq" attrs ContentNil in
      DecodeBinaryNode
        (EncodeBinaryNode
           (fun _ => [("type", "set"); ("to", "s.whatsapp.net")]) (Some node))
        = Some (inl EOF)
      /\ DecodeBinaryNode
           (EncodeBinaryNode
              (fun _ => [("to", "s.whatsapp.net"); ("type", "set")]) (Some node))
         = Some (inl EOF))
  /\ DecodeBinaryNode
       (EncodeBinaryNode map_to_list
          (Some (mkNode "iq" ∅ (ContentString "hello"))))
     = Some (inl EOF).
Proof.
  split; [| split].
  - intros rangeAttrs tag.
    unfold EncodeBinaryNode, encodeNode. cbn [encodeNode_some].
    rewrite map_size_empty. reflexivity.
  - cbv zeta. split; vm_compute; reflexivity.
  - vm_compute. reflexivity.
Qed.

End NodeFacts.

(** ** More on varints *)

Section VarintMore.
Import Protobuf.

(** The decoder stops at the end of the varint it reads. *)
Lemma decodeVarint_encodeVarint_app (n : Z) (rest : list byte) :
  0 <= n < 2 ^ 64 ->
  decodeVarint (encodeVarint n ++ rest) = (n, len (encodeVarint n)).
Proof.
  intros Hn. unfold encodeVarint, decodeVarint.
  destruct (n =? 0) eqn:E.
  - apply Z.eqb_eq in E. subst n. reflexivity.
  - apply Z.eqb_neq in E.
    rewrite decode_encode_loop; [f_equal; lia | lia | lia | change (2 ^ 0) with 1; lia | lia].
Qed.

Lemma lor_below_pow2 (a b k : Z) :
  0 <= k -> 0 <= a < 2 ^ k -> 0 <= b < 2 ^ k -> 0 <= Z.lor a b < 2 ^ k.
Proof.
  intros Hk Ha Hb. split; [apply Z.lor_nonneg; lia |].
  destruct (Z.eq_dec (Z.lor a b) 0) as [-> | Hz]; [lia |].
  apply Z.log2_lt_pow2; [pose proof (proj2 (Z.lor_nonneg a b)); lia |].
  rewrite Z.log2_lor by lia.
  destruct (Z.eq_dec a 0) as [-> | Ha0]; destruct (Z.eq_dec b 0) as [-> | Hb0].
  - rewrite Z.lor_0_l in Hz. contradiction.
  - rewrite Z.max_r by (cbn; apply Z.log2_nonneg). apply Z.log2_lt_pow2; lia.
  - rewrite Z.max_l by (cbn; apply Z.log2_nonneg). apply Z.log2_lt_pow2; lia.
  - apply Z.max_lub_lt; apply Z.log2_lt_pow2; lia.
Qed.

Lemma decodeVarint_loop_bounds (data : list byte) (n i : Z) :
  0 <= n < 2 ^ 64 -> 0 <= i -> 7 * i < 64 ->
  let r := decodeVarint_loop data n (7 * i) i in
  0 <= fst r < 2 ^ 64
  /\ (r = (0, 0) \/ (i < snd r <= i + len data /\ snd r <= 10)).
Proof.
  revert n i. induction data as [|b data IH]; intros n i Hn Hi Hs;
    cbn [decodeVarint_loop].
  - cbn. split; [lia | left; reflexivity].
  - cbv zeta. rewrite len_cons. pose proof (len_nonneg data) as Hl.
    set (n' := Z.lor n _).
    assert (Hn' : 0 <= n' < 2 ^ 64).
    { apply lor_below_pow2; [lia | lia |]. unfold wrap64.
      apply Z.mod_pos_bound. lia. }
    destruct (byte_to_Z b <? 128).
    + cbn [fst snd]. split; [exact Hn' | right; lia].
    + destruct (7 * i + 7 >=? 64) eqn:E.
      * cbn. split; [lia | left; reflexivity].
      * rewrite Z.geb_leb in E. apply Z.leb_gt in E.
        replace (7 * i + 7) with (7 * (i + 1)) by lia.
        destruct (IH n' (i + 1) Hn' ltac:(lia) ltac:(lia)) as (Hv & Hk).
        split; [exact Hv |].
        destruct Hk as [Hk | Hk]; [left; exact Hk | right; lia].
Qed.

(** X2.  Whatever the input, [decodeVarint] returns a [uint64] value and a
    count of consumed bytes that is at most ten and at most the length of
    the input; the count zero, the function's way of reporting a failure,
    always comes with the value zero. *)
Theorem decodeVarint_bounds (data : list byte) :
  let r := decodeVarint data in
  0 <= fst r < 2 ^ 64
  /\ 0 <= snd r <= len data /\ snd r <= 10
  /\ (snd r = 0 -> fst r = 0).
Proof.
  cbv zeta. unfold decodeVarint.
  pose proof (decodeVarint_loop_bounds data 0 0 ltac:(lia) ltac:(lia) ltac:(lia))
    as (Hv & Hk).
  change (7 * 0) with 0 in *. cbv zeta in Hv, Hk.
  pose proof (len_nonneg data).
  split; [exact Hv |].
  destruct Hk as [-> | Hk]; cbn [fst snd]; lia.
Qed.

(** The loop on bytes that all carry the continuation bit, [k] rounds
    before the shift reaches 64. *)
Lemma decodeVarint_loop_unterminated (k : nat) (data : list byte) (n : Z) :
  (1 <= k <= 10)%nat ->
  Forall (fun b => 128 <= byte_to_Z b) (take k data) ->
  decodeVarint_loop data n (7 * (10 - Z.of_nat k)) (10 - Z.of_nat k) = (0, 0).
Proof.
  revert k n. induction data as [|b data IH]; intros k n Hk Hall;
    cbn [decodeVarint_loop]; [reflexivity |].
  cbv zeta. destruct k as [|k]; [lia |]. cbn [take] in Hall.
  inversion Hall as [|? ? Hb Htl]; subst.
  replace (byte_to_Z b <? 128) with false by (symmetry; apply Z.ltb_ge; lia).
  destruct (7 * (10 - Z.of_nat (S k)) + 7 >=? 64) eqn:E; [reflexivity |].
  rewrite Z.geb_leb in E. apply Z.leb_gt in E.
  replace (7 * (10 - Z.of_nat (S k)) + 7) with (7 * (10 - Z.of_nat k)) by lia.
  replace (10 - Z.of_nat (S k) + 1) with (10 - Z.of_nat k) by lia.
  apply IH; [lia | exact Htl].
Qed.

(** X3.  [decodeVarint] fails, returning [(0, 0)], when every byte it can
    look at among the first ten carries the continuation bit: on the empty
    input, on a varint cut short, and on one that runs past ten bytes. *)
Theorem decodeVarint_rejects_unterminated (data : list byte) :
  Forall (fun b => 128 <= byte_to_Z b) (take 10 data) ->
  decodeVarint data = (0, 0).
Proof.
  intros Hall. unfold decodeVarint.
  apply (decodeVarint_loop_unterminated 10 data 0); [lia | exact Hall].
Qed.

(** X1.  [decodeVarint] reads one varint from the front of its input and
    stops there: on the encoding of a [uint64] value followed by any bytes
    it returns the value and the length of the encoding. *)
Theorem decodeVarint_reads_prefix (n : Z) (rest : list byte) :
  0 <= n < 2 ^ 64 ->
  decodeVarint (encodeVarint n ++ rest) = (n, len (encodeVarint n)).
Proof. apply decodeVarint_encodeVarint_app. Qed.

End VarintMore.

Lemma decodeVarint_reads_prefix_witness :
  Protobuf.decodeVarint (Protobuf.encodeVarint 300 ++ [xff; x00]) = (300, 2).
Proof.
  rewrite (decodeVarint_reads_prefix 300 [xff; x00]) by lia.
  vm_compute. reflexivity.
Defined.

Lemma decodeVarint_rejects_unterminated_witness :
  Protobuf.decodeVarint [x80; xff] = (0, 0)
  /\ Protobuf.decodeVarint (replicate 11 xff) = (0, 0).
Proof.
  split; apply decodeVarint_rejects_unterminated;
    repeat (constructor; [vm_compute; discriminate |]); constructor.
Defined.

(** ** Messages of fields *)

Section FieldFacts.
Import Protobuf.

Lemma drop_len_app {A} (a b : list A) : drop (Z.to_nat (len a)) (a ++ b) = b.
Proof. unfold len. rewrite Nat2Z.id. apply drop_app_length. Qed.

Lemma to_int_small (z : Z) : 0 <= z < 2 ^ 63 -> to_int z = z.
Proof.
  intros Hz. unfold to_int, wrap64. rewrite Z.mod_small by lia.
  replace (z <? 2 ^ 63) with true by (symmetry; apply Z.ltb_lt; lia).
  reflexivity.
Qed.

Lemma tag_arith (f : Z) :
  0 <= f < 2 ^ 60 ->
  wrap64 (Z.lor (Z.shiftl f 3) wireBytes) = 8 * f + 2
  /\ Z.shiftr (8 * f + 2) 3 = f
  /\ Z.land (8 * f + 2) 0x7 = 2.
Proof.
  intros Hf. unfold wireBytes.
  rewrite Z.lor_comm, lor_shiftl_add by lia.
  change (2 ^ 3) with 8. unfold wrap64.
  rewrite Z.mod_small by lia.
  split; [lia |]. split.
  - rewrite Z.shiftr_div_pow2 by lia. change (2 ^ 3) with 8.
    Z.div_mod_to_equations. lia.
  - change 0x7 with (Z.ones 3). rewrite Z.land_ones by lia.
    change (2 ^ 3) with 8. Z.div_mod_to_equations. lia.
Qed.

Lemma encodeVarint_len_pos (n : Z) : 0 <= n < 2 ^ 64 -> 1 <= len (encodeVarint n) <= 10.
Proof.
  intros Hn. unfold encodeVarint.
  destruct (n =? 0) eqn:E; [vm_compute; split; congruence |].
  apply Z.eqb_neq in E.
  pose proof (encodeVarint_loop_len n ltac:(lia)) as (Hk & Hlow & Hhigh).
  split; [assumption |].
  assert (7 * (len (encodeVarint_loop n) - 1) < 64).
  { apply (Z.pow_lt_mono_r_iff 2); lia. }
  lia.
Qed.

(** One round of [findField]'s loop at the start of a length-delimited
    field. *)
Lemma findField_step_field (pre d rest : list byte) (f target : Z) :
  1 <= f < 2 ^ 60 -> d <> [] ->
  len (pre ++ pbEncodeBytes f d ++ rest) < 2 ^ 62 ->
  findField_step (pre ++ pbEncodeBytes f d ++ rest) target (len pre) =
    if f =? target then Done (inl (inr d))
    else Done (inr (len (pre ++ pbEncodeBytes f d))).
Proof.
  intros Hf Hd Hlen.
  assert (Hpb : pbEncodeBytes f d
                = encodeVarint (8 * f + 2) ++ encodeVarint (len d) ++ d).
  { unfold pbEncodeBytes, encodeTag. destruct d; [contradiction |].
    rewrite (proj1 (tag_arith f ltac:(lia))). reflexivity. }
  rewrite Hpb in *. clear Hpb.
  set (T := encodeVarint (8 * f + 2)) in *.
  set (L := encodeVarint (len d)) in *.
  rewrite !len_app in Hlen.
  pose proof (len_nonneg pre). pose proof (len_nonneg d). pose proof (len_nonneg rest).
  pose proof (len_nonneg T). pose proof (len_nonneg L).
  pose proof (encodeVarint_len_pos (8 * f + 2) ltac:(lia)) as HT. fold T in HT.
  pose proof (encodeVarint_len_pos (len d) ltac:(lia)) as HL. fold L in HL.
  unfold findField_step.
  rewrite drop_len_app. rewrite <- !app_assoc.
  unfold T at 1. rewrite decodeVarint_encodeVarint_app by lia. fold T.
  replace (len T =? 0) with false by (symmetry; apply Z.eqb_neq; lia).
  destruct (tag_arith f ltac:(lia)) as (_ & -> & ->).
  rewrite (to_int_small f) by lia. rewrite (to_int_small 2) by lia.
  change (2 =? wireVarint) with false. change (2 =? wireFixed64) with false.
  change (2 =? wireFixed32) with false. change (2 =? wireBytes) with true.
  cbv iota.
  replace (len pre + len T) with (len (pre ++ T)) by (rewrite len_app; lia).
  rewrite (app_assoc pre T). rewrite drop_len_app.
  unfold L at 1. rewrite decodeVarint_encodeVarint_app by lia. fold L.
  replace (len L =? 0) with false by (symmetry; apply Z.eqb_neq; lia).
  rewrite (to_int_small (len d)) by lia.
  rewrite !len_app.
  rewrite (to_int_small (len pre + len T + len L + len d)) by lia.
  replace (len pre + len T + len L + len d >? len pre + len T + (len L + (len d + len rest)))
    with false by (symmetry; rewrite Z.gtb_ltb; apply Z.ltb_ge; lia).
  destruct (f =? target); [| do 2 f_equal; lia].
  replace (len pre + len T + len L <=? len pre + len T + len L + len d)
    with true by (symmetry; apply Z.leb_le; lia).
  replace (0 <=? len pre + len T + len L + len d)
    with true by (symmetry; apply Z.leb_le; lia).
  cbn [andb]. do 3 f_equal. unfold slice.
  replace (len pre + len T + len L) with (len ((pre ++ T) ++ L))
    by (rewrite !len_app; lia).
  rewrite (app_assoc (pre ++ T) L), drop_len_app.
  replace (len ((pre ++ T) ++ L) + len d - len ((pre ++ T) ++ L)) with (len d) by lia.
  unfold len. rewrite Nat2Z.id. apply take_app_length.
Qed.

End FieldFacts.

Section FieldLoop.
Import Protobuf.

Lemma pbEncodeBytes_nonempty (f : Z) (d : list byte) :
  d <> [] -> 1 <= len (pbEncodeBytes f d).
Proof.
  intros Hd. unfold pbEncodeBytes. destruct d as [|b d]; [contradiction |].
  set (d' := b :: d). rewrite !len_app.
  assert (1 <= len d') by (unfold d'; rewrite len_cons; pose proof (len_nonneg d); lia).
  pose proof (len_nonneg (encodeTag f wireBytes)).
  pose proof (len_nonneg (encodeVarint (len d'))). lia.
Qed.

Lemma encode_fields_cons (f : Z) (d : list byte) (fs : list (Z * list byte)) :
  encode_fields ((f, d) :: fs) = pbEncodeBytes f d ++ encode_fields fs.
Proof. reflexivity. Qed.

(** The loop over a message made of length-delimited fields. *)
Lemma findField_loop_fields (fs : list (Z * list byte)) :
  Forall (fun fd => 1 <= fst fd < 2 ^ 60) fs ->
  forall (pre : list byte) (fuel : nat) (target : Z),
    len (pre ++ encode_fields fs) < 2 ^ 62 ->
    (length (encode_fields fs) < fuel)%nat ->
    findField_loop fuel (pre ++ encode_fields fs) target (len pre)
      = Done (first_field target fs).
Proof.
  induction 1 as [|[f d] fs Hf Hfs IH]; intros pre fuel target Hlen Hfuel.
  - destruct fuel as [|fuel]; [lia |]. cbn [findField_loop encode_fields flat_map].
    rewrite app_nil_r, Z.ltb_irrefl. reflexivity.
  - cbn [fst] in Hf. rewrite encode_fields_cons in *. cbn [first_field].
    destruct d as [|b d].
    + cbn [pbEncodeBytes app] in *. change (0 <? len (@nil byte)) with false.
      rewrite andb_false_r. apply IH; assumption.
    + set (d' := b :: d) in *.
      assert (Hd : d' <> []) by discriminate.
      pose proof (pbEncodeBytes_nonempty f d' Hd) as Hpb.
      pose proof (len_nonneg pre). pose proof (len_nonneg (encode_fields fs)).
      destruct fuel as [|fuel]; [lia |]. cbn [findField_loop].
      rewrite !len_app in Hlen |- *.
      replace (len pre <? len pre + (len (pbEncodeBytes f d') + len (encode_fields fs)))
        with true by (symmetry; apply Z.ltb_lt; lia).
      replace (len pre <? 0) with false by (symmetry; apply Z.ltb_ge; lia).
      rewrite findField_step_field; [| lia | exact Hd | rewrite !len_app; lia].
      replace (0 <? len d') with true
        by (symmetry; apply Z.ltb_lt; unfold d'; rewrite len_cons;
            pose proof (len_nonneg d); lia).
      rewrite andb_true_r.
      destruct (f =? target); [reflexivity |].
      rewrite (app_assoc pre). apply IH.
      * rewrite <- app_assoc, !len_app. lia.
      * rewrite length_app in Hfuel. unfold len in Hpb. lia.
Qed.

Lemma findField_fields (fs : list (Z * list byte)) (target : Z) :
  Forall (fun fd => 1 <= fst fd < 2 ^ 60) fs ->
  len (encode_fields fs) < 2 ^ 62 ->
  findField (encode_fields fs) target = Done (first_field target fs).
Proof.
  intros Hfs Hlen. unfold findField.
  apply (findField_loop_fields fs Hfs [] _ target); [exact Hlen | lia].
Qed.

(** X4.  On a message made of length-delimited fields, with field numbers
    from 1 up to [2^60] and a total length below [2^62], [findField]
    returns the bytes of the first field written under the target number
    and skips the fields before it; it reports [ErrFieldNotFound] when the
    message has no such field.  A field with no bytes is not written, so it
    is never found. *)
Theorem findField_returns_first_field (fs : list (Z * list byte)) (target : Z) :
  Forall (fun fd => 1 <= fst fd < 2 ^ 60) fs ->
  len (encode_fields fs) < 2 ^ 62 ->
  findField (encode_fields fs) target = Done (first_field target fs).
Proof. apply findField_fields. Qed.

End FieldLoop.

Lemma findField_returns_first_field_witness :
  Protobuf.findField
    (Protobuf.encode_fields [(1, [x01]); (2, []); (3, [x02; x03]); (3, [x04])]) 3
    = Done (inr [x02; x03])
  /\ Protobuf.findField
       (Protobuf.encode_fields [(1, [x01]); (2, []); (3, [x02; x03]); (3, [x04])]) 2
     = Done (inl Protobuf.ErrFieldNotFound).
Proof.
  split.
  - rewrite (findField_returns_first_field
               [(1, [x01]); (2, []); (3, [x02; x03]); (3, [x04])] 3);
      [reflexivity | repeat (constructor; [cbn; lia |]); constructor
      | vm_compute; reflexivity].
  - rewrite (findField_returns_first_field
               [(1, [x01]); (2, []); (3, [x02; x03]); (3, [x04])] 2);
      [reflexivity | repeat (constructor; [cbn; lia |]); constructor
      | vm_compute; reflexivity].
Defined.

(** ** The server hello *)

Section ServerHelloFacts.
Import Protobuf.

Lemma len_zero_nil {A} (l : list A) : len l = 0 -> l = [].
Proof. destruct l; [reflexivity |]. rewrite len_cons. pose proof (len_nonneg l). lia. Qed.

Lemma len_pos_nonempty {A} (l : list A) : l <> [] -> 0 < len l.
Proof.
  destruct l; [contradiction |]. intros _. rewrite len_cons.
  pose proof (len_nonneg l). lia.
Qed.

Lemma field_or_nil_guard (s : list byte) :
  field_or_nil (if 0 <? len s then inr s else inl ErrFieldNotFound) = s.
Proof.
  destruct (0 <? len s) eqn:E; [reflexivity |].
  apply Z.ltb_ge in E. pose proof (len_nonneg s).
  symmetry. apply len_zero_nil. lia.
Qed.

Lemma pbEncodeBytes_single (f : Z) (d : list byte) :
  pbEncodeBytes f d = encode_fields [(f, d)].
Proof. cbn. rewrite app_nil_r. reflexivity. Qed.

Lemma pbEncodeBytes_len (f : Z) (d : list byte) :
  len d <= len (pbEncodeBytes f d).
Proof.
  unfold pbEncodeBytes. destruct d as [|b d]; [cbn; lia |].
  rewrite !len_app.
  pose proof (len_nonneg (encodeTag f wireBytes)).
  pose proof (len_nonneg (encodeVarint (len (b :: d)))). lia.
Qed.

(** The three fields of a ServerHello as [DecodeServerHello] looks them
    up. *)
Lemma findField_server_hello (e s p : list byte) :
  e <> [] ->
  len (encode_fields [(fieldEphemeral, e); (fieldStatic, s); (fieldPayload, p)]) < 2 ^ 62 ->
  let inner := encode_fields [(fieldEphemeral, e); (fieldStatic, s); (fieldPayload, p)] in
  findField inner fieldEphemeral = Done (inr e)
  /\ (exists r, findField inner fieldStatic = Done r /\ field_or_nil r = s)
  /\ (exists r, findField inner fieldPayload = Done r /\ field_or_nil r = p).
Proof.
  intros He Hlen inner.
  assert (Hfs : Forall (fun fd : Z * list byte => 1 <= fst fd < 2 ^ 60)
                  [(fieldEphemeral, e); (fieldStatic, s); (fieldPayload, p)]).
  { repeat (constructor; [cbn; unfold fieldEphemeral, fieldStatic, fieldPayload; lia |]).
    constructor. }
  pose proof (len_pos_nonempty e He) as Hpos.
  split; [| split].
  - unfold inner. rewrite findField_fields by assumption.
    cbn [first_field]. change (fieldEphemeral =? fieldEphemeral) with true.
    replace (0 <? len e) with true by (symmetry; apply Z.ltb_lt; lia). reflexivity.
  - eexists. split; [unfold inner; apply findField_fields; assumption |].
    cbn [first_field]. change (fieldEphemeral =? fieldStatic) with false.
    change (fieldStatic =? fieldStatic) with true.
    change (fieldPayload =? fieldStatic) with false.
    cbn [andb]. apply field_or_nil_guard.
  - eexists. split; [unfold inner; apply findField_fields; assumption |].
    cbn [first_field]. change (fieldEphemeral =? fieldPayload) with false.
    change (fieldStatic =? fieldPayload) with false.
    change (fieldPayload =? fieldPayload) with true.
    cbn [andb]. apply field_or_nil_guard.
Qed.

Lemma DecodeServerHello_inner (data inner e s p : list byte) :
  e <> [] ->
  findField data fieldServerHello = Done (inr inner) ->
  inner = encode_fields [(fieldEphemeral, e); (fieldStatic, s); (fieldPayload, p)] ->
  len inner < 2 ^ 62 ->
  DecodeServerHello data = Done (mkServerHello e s p).
Proof.
  intros He Hw -> Hlen.
  destruct (findField_server_hello e s p He Hlen) as (H1 & (rs & H2 & Hs) & (rp & H3 & Hp)).
  unfold DecodeServerHello. rewrite Hw. cbn [mbind run_bind].
  rewrite H1. cbn [mbind run_bind]. rewrite H2. cbn [mbind run_bind].
  rewrite H3. cbn [mbind run_bind].
  cbn [field_or_nil Ephemeral Static Payload]. rewrite Hs, Hp.
  replace (len e =? 0) with false
    by (symmetry; apply Z.eqb_neq; pose proof (len_pos_nonempty e He); lia).
  reflexivity.
Qed.

(** X5.  [DecodeServerHello] on a full handshake message: a ServerHello of
    the three fields ephemeral, static and payload, written under field 3
    of the outer message, is decoded to those three byte strings.  The
    ephemeral key must not be empty; the static key and the payload may
    be. *)
Theorem DecodeServerHello_wrapped (e s p : list byte) :
  e <> [] ->
  len (pbEncodeBytes fieldServerHello
         (encode_fields [(fieldEphemeral, e); (fieldStatic, s); (fieldPayload, p)])) < 2 ^ 62 ->
  DecodeServerHello
    (pbEncodeBytes fieldServerHello
       (encode_fields [(fieldEphemeral, e); (fieldStatic, s); (fieldPayload, p)]))
  = Done (mkServerHello e s p).
Proof.
  intros He Hlen.
  set (inner := encode_fields [(fieldEphemeral, e); (fieldStatic, s); (fieldPayload, p)]) in *.
  pose proof (pbEncodeBytes_len fieldServerHello inner) as Hle.
  assert (Hin : inner <> []).
  { unfold inner. cbn. destruct e as [|b e]; [contradiction |].
    unfold pbEncodeBytes at 1. unfold encodeTag, encodeVarint at 1.
    cbn. discriminate. }
  apply (DecodeServerHello_inner _ inner e s p He); [| reflexivity | lia].
  rewrite pbEncodeBytes_single in Hlen |- *.
  rewrite findField_fields; [| repeat constructor; cbn; unfold fieldServerHello; lia | exact Hlen].
  cbn [first_field]. change (fieldServerHello =? fieldServerHello) with true.
  replace (0 <? len inner) with true
    by (symmetry; apply Z.ltb_lt; apply len_pos_nonempty; exact Hin).
  reflexivity.
Qed.

(** X6.  [DecodeServerHello] accepts a ServerHello that is not wrapped in
    an outer message, as long as it has no payload: its ephemeral and
    static fields are read from the input itself and the payload is
    empty. *)
Theorem DecodeServerHello_bare (e s : list byte) :
  e <> [] ->
  len (encode_fields [(fieldEphemeral, e); (fieldStatic, s)]) < 2 ^ 62 ->
  DecodeServerHello (encode_fields [(fieldEphemeral, e); (fieldStatic, s)])
  = Done (mkServerHello e s []).
Proof.
  intros He Hlen.
  assert (Heq : encode_fields [(fieldEphemeral, e); (fieldStatic, s)]
                = encode_fields [(fieldEphemeral, e); (fieldStatic, s); (fieldPayload, [])]).
  { cbn. rewrite !app_nil_r. reflexivity. }
  assert (Hfs : Forall (fun fd : Z * list byte => 1 <= fst fd < 2 ^ 60)
                  [(fieldEphemeral, e); (fieldStatic, s)]).
  { repeat (constructor; [cbn; unfold fieldEphemeral, fieldStatic; lia |]). constructor. }
  destruct (findField_server_hello e s [] He ltac:(rewrite <- Heq; exact Hlen))
    as (H1 & (rs & H2 & Hs) & (rp & H3 & Hp)).
  rewrite <- Heq in H1, H2, H3.
  unfold DecodeServerHello.
  rewrite (findField_fields _ fieldServerHello Hfs Hlen).
  cbn [first_field]. change (fieldEphemeral =? fieldServerHello) with false.
  change (fieldStatic =? fieldServerHello) with false. cbn [andb mbind run_bind].
  rewrite H1. cbn [mbind run_bind]. rewrite H2. cbn [mbind run_bind].
  rewrite H3. cbn [mbind run_bind].
  cbn [field_or_nil Ephemeral Static Payload]. rewrite Hs, Hp.
  replace (len e =? 0) with false
    by (symmetry; apply Z.eqb_neq; pose proof (len_pos_nonempty e He); lia).
  reflexivity.
Qed.


End ServerHelloFacts.

Lemma DecodeServerHello_wrapped_witness :
  Protobuf.DecodeServerHello
    (Protobuf.pbEncodeBytes Protobuf.fieldServerHello
       (Protobuf.encode_fields
          [(Protobuf.fieldEphemeral, Standin.server_ephemeral);
           (Protobuf.fieldStatic, Standin.sealed_static);
           (Protobuf.fieldPayload, [])]))
  = Done (Protobuf.mkServerHello Standin.server_ephemeral Standin.sealed_static []).
Proof.
  apply (DecodeServerHello_wrapped Standin.server_ephemeral Standin.sealed_static []);
    [discriminate | vm_compute; reflexivity].
Defined.

Lemma DecodeServerHello_bare_witness :
  Protobuf.DecodeServerHello
    (Protobuf.encode_fields
       [(Protobuf.fieldEphemeral, [x01; x02]); (Protobuf.fieldStatic, [x03])])
  = Done (Protobuf.mkServerHello [x01; x02] [x03] []).
Proof.
  apply (DecodeServerHello_bare [x01; x02] [x03]);
    [discriminate | vm_compute; reflexivity].
Defined.


(** ** The client's messages *)

Section ClientMessages.
Import Protobuf.

Lemma pbEncodeBytes_nonnil (f : Z) (d : list byte) :
  d <> [] -> pbEncodeBytes f d <> [].
Proof.
  intros Hd E. pose proof (pbEncodeBytes_nonempty f d Hd) as Hl.
  rewrite E in Hl. change (len (@nil byte)) with 0 in Hl. lia.
Qed.

Lemma findField_single (f target : Z) (d : list byte) :
  1 <= f < 2 ^ 60 -> d <> [] -> len (pbEncodeBytes f d) < 2 ^ 62 ->
  findField (pbEncodeBytes f d) target
  = Done (if f =? target then inr d else inl ErrFieldNotFound).
Proof.
  intros Hf Hd Hlen. rewrite pbEncodeBytes_single in *.
  rewrite findField_fields; [| repeat constructor; cbn; lia | exact Hlen].
  cbn [first_field].
  replace (0 <? len d) with true
    by (symmetry; apply Z.ltb_lt; apply len_pos_nonempty; exact Hd).
  rewrite andb_true_r. reflexivity.
Qed.

(** X8.  [EncodeClientHello] of any ephemeral key that is not empty is a
    message with the single field 2, whose bytes are a message with the
    single field 1 holding the key: [findField] recovers the key along that
    path and finds no other field in the outer message. *)
Theorem EncodeClientHello_fields (e : list byte) :
  e <> [] ->
  len (EncodeClientHello e) < 2 ^ 62 ->
  findField (EncodeClientHello e) fieldClientHello
    = Done (inr (pbEncodeBytes fieldEphemeral e))
  /\ findField (pbEncodeBytes fieldEphemeral e) fieldEphemeral = Done (inr e)
  /\ (forall t, t <> fieldClientHello ->
        findField (EncodeClientHello e) t = Done (inl ErrFieldNotFound)).
Proof.
  intros He Hlen. unfold EncodeClientHello in *. cbv zeta in *.
  pose proof (pbEncodeBytes_nonnil fieldEphemeral e He) as Hin.
  pose proof (pbEncodeBytes_len fieldClientHello (pbEncodeBytes fieldEphemeral e)).
  split; [| split].
  - rewrite findField_single; [reflexivity | unfold fieldClientHello; lia | exact Hin | exact Hlen].
  - rewrite findField_single; [reflexivity | unfold fieldEphemeral; lia | exact He | lia].
  - intros t Ht.
    rewrite findField_single; [| unfold fieldClientHello; lia | exact Hin | exact Hlen].
    replace (fieldClientHello =? t) with false by (symmetry; apply Z.eqb_neq; congruence).
    reflexivity.
Qed.

Lemma EncodeClientFinish_eq (static payload : list byte) :
  EncodeClientFinish static payload
  = pbEncodeBytes fieldClientFinish
      (encode_fields [(fieldStatic, static); (fieldPayload, payload)]).
Proof.
  unfold EncodeClientFinish. cbn [encode_fields flat_map fst snd].
  rewrite app_nil_r.
  destruct payload as [|b p].
  - cbn. rewrite app_nil_r. reflexivity.
  - replace (0 <? len (b :: p)) with true; [reflexivity |].
    symmetry. apply Z.ltb_lt. apply len_pos_nonempty. discriminate.
Qed.

(** X9.  [EncodeClientFinish] writes one outer field, number 4; inside it
    the static key is under field 2 and the payload under field 3, and
    there is no field 1.  [findField] recovers the static key, and the
    payload when it is not empty; an empty payload is left out of the
    message. *)
Theorem EncodeClientFinish_fields (static payload : list byte) :
  static <> [] ->
  len (EncodeClientFinish static payload) < 2 ^ 62 ->
  exists inner,
    findField (EncodeClientFinish static payload) fieldClientFinish = Done (inr inner)
    /\ findField inner fieldStatic = Done (inr static)
    /\ findField inner fieldEphemeral = Done (inl ErrFieldNotFound)
    /\ findField inner fieldPayload
       = Done (if 0 <? len payload then inr payload else inl ErrFieldNotFound).
Proof.
  intros Hs Hlen. rewrite EncodeClientFinish_eq in *.
  set (inner := encode_fields [(fieldStatic, static); (fieldPayload, payload)]) in *.
  assert (Hin : inner <> []).
  { unfold inner. cbn [encode_fields flat_map fst snd].
    pose proof (pbEncodeBytes_nonnil fieldStatic static Hs).
    destruct (pbEncodeBytes fieldStatic static); [contradiction | discriminate]. }
  pose proof (pbEncodeBytes_len fieldClientFinish inner).
  assert (Hfs : Forall (fun fd : Z * list byte => 1 <= fst fd < 2 ^ 60)
                  [(fieldStatic, static); (fieldPayload, payload)]).
  { repeat (constructor; [cbn; unfold fieldStatic, fieldPayload; lia |]). constructor. }
  pose proof (len_pos_nonempty static Hs).
  exists inner. split; [| split; [| split]].
  - rewrite findField_single; [reflexivity | unfold fieldClientFinish; lia | exact Hin | exact Hlen].
  - unfold inner. rewrite findField_fields; [| exact Hfs | fold inner; lia].
    cbn [first_field]. change (fieldStatic =? fieldStatic) with true.
    replace (0 <? len static) with true by (symmetry; apply Z.ltb_lt; lia).
    reflexivity.
  - unfold inner. rewrite findField_fields; [| exact Hfs | fold inner; lia].
    reflexivity.
  - unfold inner. rewrite findField_fields; [| exact Hfs | fold inner; lia].
    cbn [first_field]. change (fieldStatic =? fieldPayload) with false.
    change (fieldPayload =? fieldPayload) with true. cbn [andb].
    reflexivity.
Qed.

End ClientMessages.

Lemma EncodeClientHello_fields_witness :
  Protobuf.findField (Protobuf.EncodeClientHello [x07])
    Protobuf.fieldClientHello
  = Done (inr (Protobuf.pbEncodeBytes Protobuf.fieldEphemeral [x07])).
Proof.
  apply (EncodeClientHello_fields [x07]);
    [discriminate | vm_compute; reflexivity].
Defined.

Lemma EncodeClientFinish_fields_witness :
  exists inner,
    Protobuf.findField (Protobuf.EncodeClientFinish [x01; x02] [])
      Protobuf.fieldClientFinish = Done (inr inner)
    /\ Protobuf.findField inner Protobuf.fieldStatic = Done (inr [x01; x02])
    /\ Protobuf.findField inner Protobuf.fieldEphemeral
       = Done (inl Protobuf.ErrFieldNotFound)
    /\ Protobuf.findField inner Protobuf.fieldPayload
       = Done (inl Protobuf.ErrFieldNotFound).
Proof.
  apply (EncodeClientFinish_fields [x01; x02] []);
    [discriminate | vm_compute; reflexivity].
Defined.

(** ** Lengths that do not fit an [int] *)

Section FieldHostile.
Import Protobuf.

Lemma encodeVarint_len_10 (n : Z) :
  2 ^ 63 <= n < 2 ^ 64 -> len (encodeVarint n) = 10.
Proof.
  intros Hn. pose proof (encodeVarint_len_pos n ltac:(lia)) as Hk.
  unfold encodeVarint in *.
  replace (n =? 0) with false in * by (symmetry; apply Z.eqb_neq; lia).
  pose proof (encodeVarint_loop_len n ltac:(lia)) as (_ & _ & Hhigh).
  assert (63 < 7 * len (encodeVarint_loop n)).
  { apply (Z.pow_lt_mono_r_iff 2); lia. }
  lia.
Qed.

Lemma findField_step_rewind (f target : Z) (rest : list byte) :
  1 <= f < 2 ^ 60 ->
  findField_step (rewinding_field f rest) target 0
  = if f =? target then Panicked else Done (inr 0).
Proof.
  intros Hf. unfold rewinding_field, encodeTag.
  destruct (tag_arith f ltac:(lia)) as (-> & Hsh & Hland).
  set (T := encodeVarint (8 * f + 2)).
  pose proof (encodeVarint_len_pos (8 * f + 2) ltac:(lia)) as HT. fold T in HT.
  set (L := 2 ^ 64 - (len T + 10)).
  assert (HL : 2 ^ 63 <= L < 2 ^ 64) by (unfold L; lia).
  pose proof (encodeVarint_len_10 L HL) as HL10.
  pose proof (len_nonneg rest).
  unfold findField_step. change (Z.to_nat 0) with 0%nat. rewrite drop_0.
  unfold T at 1. rewrite decodeVarint_encodeVarint_app by lia. fold T.
  replace (len T =? 0) with false by (symmetry; apply Z.eqb_neq; lia).
  rewrite Hsh, Hland.
  rewrite (to_int_small f) by lia. rewrite (to_int_small 2) by lia.
  change (2 =? wireVarint) with false. change (2 =? wireFixed64) with false.
  change (2 =? wireFixed32) with false. change (2 =? wireBytes) with true.
  cbv iota. rewrite Z.add_0_l. rewrite drop_len_app.
  rewrite decodeVarint_encodeVarint_app by lia. rewrite HL10.
  change (10 =? 0) with false. cbv iota zeta.
  assert (HtoL : to_int L = - (len T + 10)).
  { unfold to_int, wrap64. rewrite Z.mod_small by lia.
    replace (L <? 2 ^ 63) with false by (symmetry; apply Z.ltb_ge; lia).
    unfold L. lia. }
  rewrite HtoL.
  replace (len T + 10 + - (len T + 10)) with 0 by lia.
  change (to_int 0) with 0.
  replace (0 >? len (T ++ encodeVarint L ++ rest)) with false.
  2:{ symmetry. rewrite Z.gtb_ltb. apply Z.ltb_ge. apply len_nonneg. }
  destruct (f =? target); [| reflexivity].
  replace (len T + 10 <=? 0) with false by (symmetry; apply Z.leb_gt; lia).
  reflexivity.
Qed.

Lemma rewinding_field_len (f : Z) (rest : list byte) :
  1 <= f < 2 ^ 60 -> 11 + len rest <= len (rewinding_field f rest).
Proof.
  intros Hf. unfold rewinding_field, encodeTag.
  destruct (tag_arith f ltac:(lia)) as (-> & _ & _).
  pose proof (encodeVarint_len_pos (8 * f + 2) ltac:(lia)) as HT.
  set (T := encodeVarint (8 * f + 2)) in *.
  rewrite !len_app, encodeVarint_len_10 by lia. lia.
Qed.

Lemma findField_loop_rewind (f target : Z) (rest : list byte) (fuel : nat) :
  1 <= f < 2 ^ 60 ->
  findField_loop fuel (rewinding_field f rest) target 0
  = if f =? target
    then match fuel with O => Looping | S _ => Panicked end
    else Looping.
Proof.
  intros Hf. pose proof (rewinding_field_len f rest Hf) as Hl.
  pose proof (len_nonneg rest).
  induction fuel as [|fuel IH]; [destruct (f =? target); reflexivity |].
  cbn [findField_loop].
  replace (0 <? len (rewinding_field f rest)) with true
    by (symmetry; apply Z.ltb_lt; lia).
  change (0 <? 0) with false. cbv iota.
  rewrite findField_step_rewind by exact Hf.
  destruct (f =? target); [reflexivity | exact IH].
Qed.

(** X10.  [findField] does not return on every input.  A field whose
    length varint is [2^64] minus the position where its bytes begin turns,
    as an [int], into a negative length that passes the bounds check
    and moves the position back to 0.  On an input that starts with such a
    field, whatever follows it, [findField] panics on the slice expression
    when it is asked for that field, and reads the same field again and
    again, without end, when it is asked for any other. *)
Theorem findField_rewinding_length (f target : Z) (rest : list byte) :
  1 <= f < 2 ^ 60 ->
  findField (rewinding_field f rest) target
    = (if f =? target then Panicked else Looping)
  /\ (f <> target ->
      forall fuel, findField_loop fuel (rewinding_field f rest) target 0 = Looping).
Proof.
  intros Hf. split.
  - unfold findField. rewrite findField_loop_rewind by exact Hf. reflexivity.
  - intros Hne fuel. rewrite findField_loop_rewind by exact Hf.
    replace (f =? target) with false by (symmetry; apply Z.eqb_neq; exact Hne).
    reflexivity.
Qed.

End FieldHostile.

Section HelloHostile.
Import Protobuf Noise.
Context `{Crypto}.

(** X11.  [ProcessServerHello] inherits this from [DecodeServerHello]: on
    an input of 32 bytes or more that starts with such a field, the call
    panics when the field's number is 3 and never returns otherwise,
    whatever state the handler is in. *)
Theorem ProcessServerHello_rewinding_length (f : Z) (rest : list byte) (n : NoiseHandler) :
  1 <= f < 2 ^ 60 ->
  21 <= len rest ->
  ProcessServerHello (rewinding_field f rest) n
  = if f =? fieldServerHello then Panicked else Looping.
Proof.
  intros Hf Hrest. pose proof (rewinding_field_len f rest Hf) as Hl.
  unfold ProcessServerHello.
  replace (len (rewinding_field f rest) <? 32) with false
    by (symmetry; apply Z.ltb_ge; lia).
  assert (E : findField (rewinding_field f rest) fieldServerHello
              = if f =? fieldServerHello then Panicked else Looping).
  { unfold findField. rewrite findField_loop_rewind by exact Hf. reflexivity. }
  unfold DecodeServerHello. rewrite E.
  destruct (f =? fieldServerHello); reflexivity.
Qed.

End HelloHostile.

Lemma findField_rewinding_length_witness :
  Protobuf.findField (Protobuf.rewinding_field 1 []) 3 = Looping
  /\ Protobuf.findField (Protobuf.rewinding_field 1 []) 1 = Panicked
  /\ map byte_to_Z (Protobuf.rewinding_field 1 [])
     = [10; 245; 255; 255; 255; 255; 255; 255; 255; 255; 1].
Proof.
  split; [| split].
  - exact (proj1 (findField_rewinding_length 1 3 [] ltac:(lia))).
  - exact (proj1 (findField_rewinding_length 1 1 [] ltac:(lia))).
  - vm_compute. reflexivity.
Defined.

Lemma ProcessServerHello_rewinding_length_witness :
  Noise.ProcessServerHello (H := Standin.crypto)
    (Protobuf.rewinding_field 1 (replicate 21 x00)) Standin.client = Looping.
Proof.
  apply (ProcessServerHello_rewinding_length (H := Standin.crypto) 1
           (replicate 21 x00) Standin.client);
    [lia | vm_compute; discriminate].
Defined.

(** ** Frames *)

Section FrameFacts.
Import Noise.
Context `{Crypto}.

Lemma set_frameBuffer_twice (a b : list byte) (n : NoiseHandler) :
  set_frameBuffer a (set_frameBuffer b n) = set_frameBuffer a n.
Proof. reflexivity. Qed.

Lemma set_frameBuffer_same (n : NoiseHandler) :
  set_frameBuffer (frameBuffer n) n = n.
Proof. destruct n; reflexivity. Qed.

(** [decrypt] neither reads nor writes the frame buffer. *)
Lemma decrypt_set_frameBuffer (c b : list byte) (n : NoiseHandler) :
  decrypt c (set_frameBuffer b n)
  = (fst (decrypt c n), set_frameBuffer b (snd (decrypt c n))).
Proof.
  destruct n as [ePriv ePub sPriv sPub sE h sl ek dk rc wc fin fb lg].
  unfold decrypt, authenticate, set_counters, set_frameBuffer, set_hash.
  cbn [decKey isFinished readCounter writeCounter aead_log hash frameBuffer
       ephemeralPrivate ephemeralPublic staticPrivate staticPublic serverEphemeral
       salt encKey].
  destruct (aes_NewCipher dk); cbn [negb]; [| reflexivity].
  destruct fin; (destruct (gcm_open _ _ _ _); reflexivity).
Qed.

Lemma decrypt_keeps_mode (c : list byte) (n : NoiseHandler) :
  isFinished (snd (decrypt c n)) = isFinished n
  /\ frameBuffer (snd (decrypt c n)) = frameBuffer n.
Proof.
  destruct n as [ePriv ePub sPriv sPub sE h sl ek dk rc wc fin fb lg].
  unfold decrypt, authenticate, set_counters, set_frameBuffer, set_hash.
  cbn [decKey isFinished readCounter writeCounter aead_log hash frameBuffer
       ephemeralPrivate ephemeralPublic staticPrivate staticPublic serverEphemeral
       salt encKey].
  destruct (aes_NewCipher dk); cbn [negb]; [| split; reflexivity].
  destruct fin; (destruct (gcm_open _ _ _ _); split; reflexivity).
Qed.

(** The frames already collected are only ever appended to. *)
Lemma DecodeFrame_loop_acc (fuel : nat) (acc : list (list byte)) (n : NoiseHandler) :
  DecodeFrame_loop fuel acc n
  = ((acc ++ fst (fst (DecodeFrame_loop fuel [] n)),
      snd (fst (DecodeFrame_loop fuel [] n))),
     snd (DecodeFrame_loop fuel [] n)).
Proof.
  revert acc n. induction fuel as [|fuel IH]; intros acc n.
  - cbn. rewrite app_nil_r. reflexivity.
  - cbn [DecodeFrame_loop].
    destruct (frameBuffer n) as [|b0 [|b1 [|b2 rest]]];
      try (cbn; rewrite app_nil_r; reflexivity).
    cbv zeta.
    match goal with |- context [if ?c then _ else _] => destruct c end;
      [cbn; rewrite app_nil_r; reflexivity |].
    cbn [isFinished set_frameBuffer].
    destruct (isFinished n).
    + match goal with |- context [decrypt ?f ?m] => destruct (decrypt f m) as [[e|d] m'] end.
      * cbn. rewrite app_nil_r. reflexivity.
      * rewrite (IH (acc ++ [d])), (IH ([] ++ [d])). cbn [fst snd].
        rewrite <- app_assoc. reflexivity.
    + rewrite (IH (acc ++ _)), (IH ([] ++ _)). cbn [fst snd].
      rewrite <- app_assoc. reflexivity.
Qed.

(** Rounds beyond the length of the buffer are never used. *)
Lemma DecodeFrame_loop_fuel (fuel1 : nat) :
  forall (fuel2 : nat) (acc : list (list byte)) (n : NoiseHandler),
    (length (frameBuffer n) <= fuel1)%nat ->
    (length (frameBuffer n) <= fuel2)%nat ->
    DecodeFrame_loop fuel1 acc n = DecodeFrame_loop fuel2 acc n.
Proof.
  induction fuel1 as [|fuel1 IH]; intros fuel2 acc n H1 H2.
  - destruct (frameBuffer n) eqn:E; [| cbn in H1; lia].
    destruct fuel2; cbn [DecodeFrame_loop]; rewrite ?E; reflexivity.
  - destruct fuel2 as [|fuel2].
    + destruct (frameBuffer n) eqn:E; [| cbn in H2; lia].
      cbn [DecodeFrame_loop]. rewrite ?E. reflexivity.
    + cbn [DecodeFrame_loop].
      destruct (frameBuffer n) as [|b0 [|b1 [|b2 rest]]] eqn:E; try reflexivity.
      cbv zeta.
      match goal with |- context [if ?c then _ else _] => destruct c end;
        [reflexivity |].
      cbn [isFinished set_frameBuffer].
      set (size := Z.lor _ _).
      assert (Hd : (length (drop (Z.to_nat size) rest) <= length rest)%nat)
        by (rewrite length_drop; lia).
      cbn [length] in H1, H2.
      destruct (isFinished n).
      * rewrite decrypt_set_frameBuffer.
        destruct (decrypt _ n) as [[e|d] m']; cbn [fst snd]; [reflexivity |].
        apply IH; cbn [frameBuffer set_frameBuffer]; lia.
      * apply IH; cbn [frameBuffer set_frameBuffer]; lia.
Qed.

End FrameFacts.

Section FrameChunks.
Import Noise.
Context `{Crypto}.

(** More input after the buffer does not change the frames that were
    already complete. *)
Lemma DecodeFrame_loop_more (fuel : nat) :
  forall (acc : list (list byte)) (n : NoiseHandler) (C : list byte),
    (length (frameBuffer n) <= fuel)%nat ->
    snd (fst (DecodeFrame_loop fuel acc n)) = None ->
    forall f1 f2 : nat,
      (length (frameBuffer n ++ C) <= f1)%nat ->
      (length (frameBuffer (snd (DecodeFrame_loop fuel acc n)) ++ C) <= f2)%nat ->
      DecodeFrame_loop f1 acc (set_frameBuffer (frameBuffer n ++ C) n)
      = DecodeFrame_loop f2 (fst (fst (DecodeFrame_loop fuel acc n)))
          (set_frameBuffer (frameBuffer (snd (DecodeFrame_loop fuel acc n)) ++ C)
             (snd (DecodeFrame_loop fuel acc n))).
Proof.
  induction fuel as [|fuel IH]; intros acc n C Hfuel Herr f1 f2 Hf1 Hf2.
  - cbn [DecodeFrame_loop fst snd] in *.
    apply DecodeFrame_loop_fuel; cbn [frameBuffer set_frameBuffer]; assumption.
  - cbn [DecodeFrame_loop] in Herr, Hf2 |- *.
    destruct (frameBuffer n) as [|b0 [|b1 [|b2 rest]]] eqn:E;
      try (cbn [fst snd] in *; rewrite ?E in *;
           apply DecodeFrame_loop_fuel; cbn [frameBuffer set_frameBuffer]; assumption).
    cbv zeta in Herr, Hf2 |- *.
    set (size := Z.lor (Z.shiftl (byte_to_Z b0) 16)
                   (Z.lor (Z.shiftl (byte_to_Z b1) 8) (byte_to_Z b2))) in *.
    destruct (len (b0 :: b1 :: b2 :: rest) <? 3 + size) eqn:Esz.
    { cbn [fst snd] in *. rewrite ?E in *.
      apply DecodeFrame_loop_fuel; cbn [frameBuffer set_frameBuffer]; assumption. }
    apply Z.ltb_ge in Esz. rewrite !len_cons in Esz.
    assert (Hsz0 : 0 <= size).
    { unfold size. pose proof (byte_to_Z_range b0). pose proof (byte_to_Z_range b1).
      pose proof (byte_to_Z_range b2).
      apply Z.lor_nonneg. split; [apply Z.shiftl_nonneg; lia |].
      apply Z.lor_nonneg. split; [apply Z.shiftl_nonneg; lia | lia]. }
    assert (Hsz : (Z.to_nat size <= length rest)%nat) by (unfold len in Esz; lia).
    cbn [isFinished set_frameBuffer] in Herr, Hf2 |- *.
    destruct f1 as [|f1]; [cbn [app length] in Hf1; lia |].
    cbn [DecodeFrame_loop frameBuffer set_frameBuffer app].
    cbv zeta. fold size.
    replace (len (b0 :: b1 :: b2 :: rest ++ C) <? 3 + size) with false.
    2:{ symmetry. apply Z.ltb_ge. rewrite !len_cons, len_app.
        pose proof (len_nonneg C). lia. }
    rewrite take_app_le by exact Hsz.
    rewrite drop_app_le by exact Hsz.
    cbn [isFinished set_frameBuffer].
    cbn [app length] in Hf1. rewrite length_app in Hf1.
    assert (Hd : (length (drop (Z.to_nat size) rest) <= length rest)%nat)
      by (rewrite length_drop; lia).
    cbn [length] in Hfuel.
    destruct (isFinished n) eqn:Ef.
    + rewrite ?set_frameBuffer_twice.
      rewrite (decrypt_set_frameBuffer _ (drop (Z.to_nat size) rest)) in Herr, Hf2 |- *.
      rewrite (decrypt_set_frameBuffer _ (drop (Z.to_nat size) rest ++ C)).
      destruct (decrypt (take (Z.to_nat size) rest) n) as [[e|d] m'];
        cbn [fst snd] in Herr, Hf2 |- *; [discriminate Herr |].
      specialize (IH (acc ++ [d]) (set_frameBuffer (drop (Z.to_nat size) rest) m') C).
      cbn [frameBuffer set_frameBuffer] in IH.
      rewrite set_frameBuffer_twice in IH.
      apply IH; try assumption; try lia.
      rewrite length_app. lia.
    + specialize (IH (acc ++ [take (Z.to_nat size) rest])
                    (set_frameBuffer (drop (Z.to_nat size) rest) n) C).
      cbn [frameBuffer set_frameBuffer] in IH.
      rewrite set_frameBuffer_twice in IH.
      apply IH; try assumption; try lia.
      rewrite length_app. lia.
Qed.

(** X12.  [DecodeFrame] reassembles a stream however it is cut: when a
    call on the bytes [a] reports no error, a following call on the bytes
    [b] returns the frames that one call on [a ++ b] returns after the
    frames of the first call, reports the same error and leaves the same
    handler, before and after the end of the handshake alike. *)
Theorem DecodeFrame_chunks (a b : list byte) (n : NoiseHandler) :
  snd (fst (DecodeFrame a n)) = None ->
  DecodeFrame (a ++ b) n
  = ((fst (fst (DecodeFrame a n))
        ++ fst (fst (DecodeFrame b (snd (DecodeFrame a n)))),
      snd (fst (DecodeFrame b (snd (DecodeFrame a n))))),
     snd (DecodeFrame b (snd (DecodeFrame a n)))).
Proof.
  intros Herr. unfold DecodeFrame in *. cbv zeta in *.
  cbn [frameBuffer set_frameBuffer] in *.
  set (na := set_frameBuffer (frameBuffer n ++ a) n) in *.
  set (ra := DecodeFrame_loop (length (frameBuffer n ++ a)) [] na) in *.
  rewrite <- (DecodeFrame_loop_acc (length (frameBuffer (snd ra) ++ b)) (fst (fst ra))).
  pose proof (DecodeFrame_loop_more (length (frameBuffer n ++ a)) [] na b) as Hm.
  fold ra in Hm.
  specialize (Hm ltac:(unfold na; cbn [frameBuffer set_frameBuffer]; lia) Herr
                (length (frameBuffer n ++ a ++ b))
                (length (frameBuffer (snd ra) ++ b))).
  unfold na in Hm at 1 2 3. cbn [frameBuffer set_frameBuffer] in Hm.
  rewrite <- app_assoc in Hm.
  apply Hm; [rewrite !length_app; lia | lia].
Qed.

End FrameChunks.

Section FrameRoundtrip.
Import Noise.
Context `{Crypto}.

(** The length prefix counts modulo [2^24]. *)
Lemma frame_length_mod (L : Z) : frame_length L = frame_length (L mod 2 ^ 24).
Proof.
  unfold frame_length, BE16, wrap16.
  assert (Hb : forall z, byte_of_Z z = byte_of_Z (z mod 256)).
  { intros z. unfold byte_of_Z. rewrite Z.mod_mod by lia. reflexivity. }
  assert (Hland : Z.land (L mod 2 ^ 24) 0xFFFF = Z.land L 0xFFFF).
  { change 0xFFFF with (Z.ones 16). rewrite !Z.land_ones by lia.
    change (2 ^ 24) with 16777216. change (2 ^ 16) with 65536.
    Z.div_mod_to_equations. lia. }
  rewrite Hland. f_equal.
  rewrite (Hb (Z.shiftr L 16)), (Hb (Z.shiftr (L mod 2 ^ 24) 16)).
  f_equal. rewrite !Z.shiftr_div_pow2 by lia.
  change (2 ^ 24) with 16777216. change (2 ^ 16) with 65536.
  Z.div_mod_to_equations. lia.
Qed.

(** The size [DecodeFrame] reads from the prefix [EncodeFrame] writes. *)
Lemma frame_length_size (L : Z) :
  0 <= L < 2 ^ 24 ->
  exists b0 b1 b2,
    frame_length L = [b0; b1; b2]
    /\ Z.lor (Z.shiftl (byte_to_Z b0) 16)
             (Z.lor (Z.shiftl (byte_to_Z b1) 8) (byte_to_Z b2)) = L.
Proof.
  intros HL. unfold frame_length, BE16, wrap16.
  eexists _, _, _. split; [reflexivity |].
  change 0xFFFF with (Z.ones 16). rewrite Z.land_ones by lia.
  rewrite Z.mod_mod by lia.
  rewrite !byte_to_of. rewrite !Z.shiftr_div_pow2 by lia.
  change (2 ^ 8) with 256. change (2 ^ 16) with 65536 in *.
  change (2 ^ 24) with 16777216 in *.
  set (hi := L / 65536). set (lo := L mod 65536).
  assert (Hhi : 0 <= hi < 256) by (unfold hi; Z.div_mod_to_equations; lia).
  assert (Hlo : 0 <= lo < 65536) by (unfold lo; apply Z.mod_pos_bound; lia).
  rewrite (Z.mod_small hi) by lia.
  assert (Hmid : 0 <= lo / 256 < 256) by (Z.div_mod_to_equations; lia).
  rewrite (Z.mod_small (lo / 256)) by lia.
  pose proof (Z.mod_pos_bound lo 256 ltac:(lia)) as Hlow.
  rewrite (Z.lor_comm (Z.shiftl (lo / 256) 8)).
  rewrite lor_shiftl_add by lia.
  rewrite Z.lor_comm.
  rewrite lor_shiftl_add; [| lia | | lia].
  - change (2 ^ 8) with 256. change (2 ^ 16) with 65536.
    unfold hi, lo. Z.div_mod_to_equations. lia.
  - change (2 ^ 8) with 256. change (2 ^ 16) with 65536.
    Z.div_mod_to_equations. lia.
Qed.

(** One round of the loop on a buffer that begins with a whole frame,
    before the handshake is finished. *)
Lemma DecodeFrame_loop_frame (fuel : nat) (acc : list (list byte))
    (d tail : list byte) (n : NoiseHandler) :
  isFinished n = false -> len d < 2 ^ 24 ->
  frameBuffer n = frame_length (len d) ++ d ++ tail ->
  DecodeFrame_loop (S fuel) acc n
  = DecodeFrame_loop fuel (acc ++ [d]) (set_frameBuffer tail n).
Proof.
  intros Hfin Hlen Hbuf.
  destruct (frame_length_size (len d) ltac:(pose proof (len_nonneg d); lia))
    as (b0 & b1 & b2 & Hfl & Hsize).
  rewrite Hfl in Hbuf. cbn [app] in Hbuf.
  cbn [DecodeFrame_loop]. rewrite Hbuf. cbv zeta. rewrite Hsize.
  replace (len (b0 :: b1 :: b2 :: d ++ tail) <? 3 + len d) with false.
  2:{ symmetry. apply Z.ltb_ge. rewrite !len_cons, len_app.
      pose proof (len_nonneg tail). lia. }
  cbn [isFinished set_frameBuffer]. rewrite Hfin.
  unfold len. rewrite Nat2Z.id.
  rewrite take_app_length, drop_app_length. reflexivity.
Qed.

Lemma DecodeFrame_loop_frames (ds : list (list byte)) :
  forall (fuel : nat) (acc : list (list byte)) (n : NoiseHandler),
    isFinished n = false ->
    Forall (fun d => len d < 2 ^ 24) ds ->
    frameBuffer n = flat_map (fun d => frame_length (len d) ++ d) ds ->
    (length ds <= fuel)%nat ->
    DecodeFrame_loop fuel acc n = ((acc ++ ds, None), set_frameBuffer [] n).
Proof.
  induction ds as [|d ds IH]; intros fuel acc n Hfin Hds Hbuf Hfuel.
  - cbn [flat_map] in Hbuf. rewrite app_nil_r.
    rewrite <- Hbuf, set_frameBuffer_same.
    destruct fuel; cbn [DecodeFrame_loop]; rewrite ?Hbuf; reflexivity.
  - destruct fuel as [|fuel]; [cbn in Hfuel; lia |].
    apply Forall_cons in Hds. destruct Hds as [Hd Hds].
    cbn [flat_map] in Hbuf. rewrite <- app_assoc in Hbuf.
    rewrite (DecodeFrame_loop_frame fuel acc d _ n Hfin Hd Hbuf).
    rewrite IH; [| exact Hfin | exact Hds | reflexivity | cbn in Hfuel; lia].
    rewrite <- app_assoc. reflexivity.
Qed.

Lemma frames_length (ds : list (list byte)) :
  (length ds <= length (flat_map (fun d => frame_length (len d) ++ d) ds))%nat.
Proof.
  induction ds as [|d ds IH]; [cbn; lia |].
  cbn [flat_map]. rewrite !length_app. cbn [length frame_length BE16].
  cbn [length]. lia.
Qed.

(** X13.  Before the handshake is finished [EncodeFrame] puts the
    three-byte big-endian length in front of the data and changes nothing
    in the handler, and [DecodeFrame], started on an empty buffer, splits a
    stream of such frames into the payloads framed, in order, with no error
    and an empty buffer left, provided every payload is shorter than [2^24]
    bytes. *)
Theorem handshake_frames_roundtrip (ds : list (list byte)) (s r : NoiseHandler) :
  isFinished s = false -> isFinished r = false -> frameBuffer r = [] ->
  Forall (fun d => len d < 2 ^ 24) ds ->
  (forall d, EncodeFrame d s = (inr (frame_length (len d) ++ d), s))
  /\ DecodeFrame (flat_map (fun d => frame_length (len d) ++ d) ds) r
     = ((ds, None), r).
Proof.
  intros Hs Hr Hbuf Hds. split.
  - intros d. unfold EncodeFrame. rewrite Hs. reflexivity.
  - unfold DecodeFrame. cbv zeta. rewrite Hbuf. cbn [app frameBuffer set_frameBuffer].
    rewrite (DecodeFrame_loop_frames ds _ [] (set_frameBuffer _ r));
      [| exact Hr | exact Hds | reflexivity | apply frames_length].
    cbn [app]. rewrite set_frameBuffer_twice, <- Hbuf.
    rewrite set_frameBuffer_same. reflexivity.
Qed.

(** X14.  The length prefix has three bytes and nothing checks that the
    length fits: a payload [2^24] bytes longer gets the same prefix, so a
    frame of [2^24] bytes or more announces a length that is too short. *)
Theorem frame_length_wraps (L : Z) :
  frame_length (L + 2 ^ 24) = frame_length L.
Proof.
  rewrite (frame_length_mod (L + 2 ^ 24)), (frame_length_mod L).
  f_equal. replace (L + 2 ^ 24) with (L + 1 * 2 ^ 24) by lia.
  apply Z.mod_add. lia.
Qed.

End FrameRoundtrip.

Section TransportFrames.
Import Noise.
Context `{Crypto}.

Lemma decrypt_transport_ok (c d : list byte) (n : NoiseHandler) :
  isFinished n = true -> aes_NewCipher (decKey n) = true ->
  gcm_open (decKey n) (generateIV (readCounter n)) c (hash n) = Some d ->
  decrypt c n
  = (inr d,
     set_counters (wrap32 (readCounter n + 1)) (writeCounter n)
       (aead_log n ++ [mkCall (decKey n) (generateIV (readCounter n))]) n).
Proof.
  intros Hfin Haes Hopen. unfold decrypt. rewrite Hfin, Haes. cbn [negb].
  cbn [set_counters decKey hash]. rewrite Hopen.
  unfold authenticate.
  change (isFinished (set_counters _ _ _ n)) with (isFinished n).
  rewrite Hfin. reflexivity.
Qed.

(** X15.  After the handshake, a sending and a receiving handler that are
    in step (the receiver's decryption key is the sender's encryption key,
    their hashes agree, the receiver's read counter equals the sender's
    write counter) stay in step over a frame: when the AEAD opens what it
    sealed and the sealed text is shorter than [2^24] bytes, [EncodeFrame]
    returns the sealed text behind its length, [DecodeFrame] on that frame
    returns the plaintext alone, both counters have moved on by one and the
    keys and hashes are as before. *)
Theorem transport_frame_roundtrip (d : list byte) (s r : NoiseHandler) :
  let c := gcm_seal (encKey s) (generateIV (writeCounter s)) d (hash s) in
  let frame := frame_length (len c) ++ c in
  isFinished s = true -> isFinished r = true ->
  aes_NewCipher (encKey s) = true ->
  decKey r = encKey s -> hash r = hash s -> readCounter r = writeCounter s ->
  frameBuffer r = [] ->
  len c < 2 ^ 24 ->
  gcm_open (encKey s) (generateIV (writeCounter s)) c (hash s) = Some d ->
  let s' := snd (EncodeFrame d s) in
  let r' := snd (DecodeFrame frame r) in
  fst (EncodeFrame d s) = inr frame
  /\ fst (DecodeFrame frame r) = ([d], None)
  /\ isFinished s' = true /\ isFinished r' = true
  /\ encKey s' = encKey s /\ decKey r' = encKey s'
  /\ hash s' = hash s /\ hash r' = hash s'
  /\ writeCounter s' = wrap32 (writeCounter s + 1)
  /\ readCounter r' = writeCounter s'
  /\ writeCounter r' = writeCounter r
  /\ frameBuffer r' = [].
Proof.
  intros c frame Hs Hr Haes Hkey Hhash Hctr Hbuf Hlen Hopen s' r'.
  assert (HE : EncodeFrame d s
               = (inr frame,
                  set_counters (readCounter s) (wrap32 (writeCounter s + 1))
                    (aead_log s ++ [mkCall (encKey s) (generateIV (writeCounter s))]) s)).
  { unfold EncodeFrame, encrypt. rewrite Hs, Haes. cbn [negb].
    unfold authenticate. cbn [isFinished set_counters]. rewrite Hs. reflexivity. }
  assert (HD : DecodeFrame frame r
               = (([d], None),
                  set_counters (wrap32 (readCounter r + 1)) (writeCounter r)
                    (aead_log r ++ [mkCall (decKey r) (generateIV (readCounter r))]) r)).
  { unfold DecodeFrame. cbv zeta. rewrite Hbuf. cbn [app frameBuffer set_frameBuffer].
    unfold frame.
    destruct (frame_length_size (len c) ltac:(pose proof (len_nonneg c); lia))
      as (b0 & b1 & b2 & Hfl & Hsize).
    rewrite Hfl. cbn [app length DecodeFrame_loop frameBuffer set_frameBuffer].
    cbv zeta. rewrite Hsize.
    replace (len (b0 :: b1 :: b2 :: c) <? 3 + len c) with false
      by (symmetry; apply Z.ltb_ge; rewrite !len_cons; lia).
    cbn [isFinished set_frameBuffer]. rewrite Hr.
    unfold len. rewrite Nat2Z.id, firstn_all, drop_all.
    rewrite set_frameBuffer_twice, decrypt_set_frameBuffer.
    rewrite (decrypt_transport_ok c d r Hr);
      [| rewrite Hkey; exact Haes | rewrite Hkey, Hctr, Hhash; exact Hopen].
    cbn [fst snd].
    destruct (length c); cbn [DecodeFrame_loop frameBuffer set_frameBuffer set_counters app];
      rewrite <- Hbuf; destruct r; reflexivity. }
  subst s' r'. rewrite HE, HD. cbn [fst snd].
  cbn [set_counters isFinished encKey decKey hash writeCounter readCounter frameBuffer].
  rewrite Hs, Hr, Hkey, Hhash, Hctr, Hbuf. repeat split; reflexivity.
Qed.

(** [encrypt] and [decrypt] in transport mode: what they leave alone. *)
Lemma encrypt_transport (p : list byte) (n : NoiseHandler) :
  isFinished n = true ->
  let n' := snd (encrypt p n) in
  isFinished n' = true /\ encKey n' = encKey n /\ decKey n' = decKey n
  /\ hash n' = hash n /\ salt n' = salt n /\ readCounter n' = readCounter n
  /\ frameBuffer n' = frameBuffer n.
Proof.
  intros Hfin. destruct n as [ePriv ePub sPriv sPub sE h sl ek dk rc wc fin fb lg].
  cbn [isFinished] in Hfin. subst fin.
  unfold encrypt, authenticate, set_counters.
  cbn [encKey isFinished]. destruct (aes_NewCipher ek); cbn; repeat split; reflexivity.
Qed.

Lemma decrypt_transport (c : list byte) (n : NoiseHandler) :
  isFinished n = true ->
  let n' := snd (decrypt c n) in
  isFinished n' = true /\ encKey n' = encKey n /\ decKey n' = decKey n
  /\ hash n' = hash n /\ salt n' = salt n /\ writeCounter n' = writeCounter n
  /\ frameBuffer n' = frameBuffer n.
Proof.
  intros Hfin. destruct n as [ePriv ePub sPriv sPub sE h sl ek dk rc wc fin fb lg].
  cbn [isFinished] in Hfin. subst fin.
  unfold decrypt, authenticate, set_counters.
  cbn [decKey isFinished hash]. destruct (aes_NewCipher dk); cbn [negb];
    [| cbn; repeat split; reflexivity].
  destruct (gcm_open _ _ _ _); cbn; repeat split; reflexivity.
Qed.

Lemma same_session_refl (n : NoiseHandler) : same_session n n.
Proof. repeat split. Qed.

Lemma same_session_trans (a b c : NoiseHandler) :
  same_session a b -> same_session b c -> same_session a c.
Proof.
  intros (H1 & H2 & H3 & H4 & H5) (G1 & G2 & G3 & G4 & G5).
  repeat split; congruence.
Qed.

Lemma DecodeFrame_loop_transport (fuel : nat) :
  forall (acc : list (list byte)) (n : NoiseHandler),
    isFinished n = true ->
    same_session n (snd (DecodeFrame_loop fuel acc n))
    /\ writeCounter (snd (DecodeFrame_loop fuel acc n)) = writeCounter n.
Proof.
  induction fuel as [|fuel IH]; intros acc n Hfin.
  - cbn. split; [apply same_session_refl | reflexivity].
  - cbn [DecodeFrame_loop].
    destruct (frameBuffer n) as [|b0 [|b1 [|b2 rest]]];
      try (cbn; split; [apply same_session_refl | reflexivity]).
    cbv zeta.
    match goal with |- context [if ?c then _ else _] => destruct c end;
      [cbn; split; [apply same_session_refl | reflexivity] |].
    cbn [isFinished set_frameBuffer]. rewrite Hfin.
    rewrite decrypt_set_frameBuffer.
    pose proof (decrypt_transport (take (Z.to_nat (Z.lor (Z.shiftl (byte_to_Z b0) 16)
                  (Z.lor (Z.shiftl (byte_to_Z b1) 8) (byte_to_Z b2)))) rest) n Hfin)
      as (D1 & D2 & D3 & D4 & D5 & D6 & D7).
    destruct (decrypt _ n) as [[e|d] m]; cbn [fst snd] in *.
    + split; [repeat split; cbn; congruence | cbn; congruence].
    + destruct (IH (acc ++ [d]) (set_frameBuffer (drop (Z.to_nat (Z.lor (Z.shiftl (byte_to_Z b0) 16)
                  (Z.lor (Z.shiftl (byte_to_Z b1) 8) (byte_to_Z b2)))) rest) m))
        as (I1 & I2); [cbn; exact D1 |].
      split.
      * eapply same_session_trans; [| exact I1].
        repeat split; cbn; congruence.
      * rewrite I2. cbn. exact D6.
Qed.

(** X16.  Once the handshake is finished, [Encrypt], [Decrypt],
    [EncodeFrame] and [DecodeFrame] never change the keys, the hash, the
    salt or the finished flag, whatever the data and whether or not the AEAD
    accepts it; the sending functions leave the read counter alone and the
    receiving functions the write counter. *)
Theorem transport_state_is_fixed (data : list byte) (n : NoiseHandler) :
  isFinished n = true ->
  same_session n (snd (Encrypt data n))
  /\ same_session n (snd (Decrypt data n))
  /\ same_session n (snd (EncodeFrame data n))
  /\ same_session n (snd (DecodeFrame data n))
  /\ readCounter (snd (Encrypt data n)) = readCounter n
  /\ readCounter (snd (EncodeFrame data n)) = readCounter n
  /\ writeCounter (snd (Decrypt data n)) = writeCounter n
  /\ writeCounter (snd (DecodeFrame data n)) = writeCounter n.
Proof.
  intros Hfin.
  pose proof (encrypt_transport data n Hfin) as (E1 & E2 & E3 & E4 & E5 & E6 & E7).
  pose proof (decrypt_transport data n Hfin) as (D1 & D2 & D3 & D4 & D5 & D6 & D7).
  assert (HEnc : snd (Encrypt data n) = snd (encrypt data n)).
  { unfold Encrypt. rewrite Hfin. cbn [negb].
    destruct (encrypt data n) as [[e|c] m]; reflexivity. }
  assert (HDec : snd (Decrypt data n) = snd (decrypt data n)).
  { unfold Decrypt. rewrite Hfin. cbn [negb].
    destruct (decrypt data n) as [[e|c] m]; reflexivity. }
  assert (HEF : snd (EncodeFrame data n) = snd (encrypt data n)).
  { unfold EncodeFrame. rewrite Hfin.
    destruct (encrypt data n) as [[e|c] m]; reflexivity. }
  pose proof (DecodeFrame_loop_transport
                (length (frameBuffer n ++ data)) []
                (set_frameBuffer (frameBuffer n ++ data) n) Hfin) as (L1 & L2).
  rewrite HEnc, HDec, HEF. unfold DecodeFrame. cbv zeta.
  cbn [frameBuffer set_frameBuffer].
  repeat split; try congruence;
    try (destruct L1 as (? & ? & ? & ? & ?); cbn in *; congruence).
Qed.

End TransportFrames.

Lemma DecodeFrame_chunks_witness :
  fst (fst (Noise.DecodeFrame (H := Standin.crypto)
              ([x00; x00; x02; x41] ++ [x42; x00; x00]) Standin.client))
  = [[x41; x42]].
Proof.
  rewrite (DecodeFrame_chunks (H := Standin.crypto)
             [x00; x00; x02; x41] [x42; x00; x00] Standin.client)
    by reflexivity.
  vm_compute. reflexivity.
Defined.

Lemma handshake_frames_roundtrip_witness :
  Noise.DecodeFrame (H := Standin.crypto)
    (flat_map (fun d => Noise.frame_length (len d) ++ d) [[x01]; []; [x02; x03]])
    Standin.client
  = (([[x01]; []; [x02; x03]], None), Standin.client).
Proof.
  apply (handshake_frames_roundtrip (H := Standin.crypto)
           [[x01]; []; [x02; x03]] Standin.client Standin.client);
    [reflexivity | reflexivity | reflexivity
    | repeat (constructor; [vm_compute; reflexivity |]); constructor].
Defined.

Lemma transport_frame_roundtrip_witness :
  let s := Standin.transport_client in
  let r := Noise.set_keys (Noise.hash s) (Noise.salt s) (Noise.decKey s)
             (Noise.encKey s) true s in
  match fst (Noise.EncodeFrame (H := Standin.crypto) (bytes_of_string "hello") s) with
  | inr frame =>
      fst (Noise.DecodeFrame (H := Standin.crypto) frame r)
      = ([bytes_of_string "hello"], None)
  | inl _ => False
  end.
Proof.
  cbv zeta.
  pose proof (transport_frame_roundtrip (H := Standin.crypto)
                (bytes_of_string "hello") Standin.transport_client
                (Noise.set_keys (Noise.hash Standin.transport_client)
                   (Noise.salt Standin.transport_client)
                   (Noise.decKey Standin.transport_client)
                   (Noise.encKey Standin.transport_client) true
                   Standin.transport_client)
                ltac:(vm_compute; reflexivity) ltac:(vm_compute; reflexivity)
                ltac:(vm_compute; reflexivity) ltac:(vm_compute; reflexivity)
                ltac:(vm_compute; reflexivity) ltac:(vm_compute; reflexivity)
                ltac:(vm_compute; reflexivity) ltac:(vm_compute; reflexivity)
                ltac:(vm_compute; reflexivity)) as (HE & HD & _).
  rewrite HE. exact HD.
Defined.

Lemma transport_state_is_fixed_witness :
  Noise.same_session Standin.transport_client
    (snd (Noise.Decrypt (H := Standin.crypto) Standin.flipped_message
            Standin.transport_client))
  /\ Noise.same_session Standin.transport_client
       (snd (Noise.EncodeFrame (H := Standin.crypto) (bytes_of_string "hello")
               Standin.transport_client)).
Proof.
  pose proof (transport_state_is_fixed (H := Standin.crypto)
                Standin.flipped_message Standin.transport_client
                ltac:(vm_compute; reflexivity)) as (_ & HD & _).
  pose proof (transport_state_is_fixed (H := Standin.crypto)
                (bytes_of_string "hello") Standin.transport_client
                ltac:(vm_compute; reflexivity)) as (_ & _ & HE & _).
  split; [exact HD | exact HE].
Defined.
